(** * The wpa_supplicant network manager of the Miracast daemon

    A shallow embedding of [src/wpa/wpasupplicantnetworkmanager.cpp]: the
    coordinator that keeps the peer table and the current peer, reacts to the
    supplicant's unsolicited events, drives the DHCP pair and supervises the
    supplicant process.

    The C++ object is one record, [Manager].  Every member function is a
    computation in a small state-and-log monad: it threads the record, appends
    the calls made on collaborators (delegate, DHCP client and server, socket)
    to a log, and ends in [Undefined] where the C++ dereferences a null
    [shared_ptr].

    Module [Skeleton] embeds the device map of the controller's D-Bus
    skeleton, [src/mcs/miracastcontrollerskeleton.cpp], whose handlers
    carry the names of the delegate calls, and the two string functions of
    that file. *)

From Stdlib Require Import ZArith NArith Lia.
From stdpp Require Import base option list gmap strings pretty.

(** ** Peers *)

Inductive NetworkDeviceState :=
| kIdle
| kFailure
| kAssociation
| kConfiguration
| kConnected
| kDisconnected.

Global Instance NetworkDeviceState_eq_dec : EqDecision NetworkDeviceState.
Proof. solve_decision. Defined.

(** Modelled from the spec: [mcs/networkdevice.h] is not among the sources.
    A peer carries its hardware address, its name and its state; a freshly
    constructed peer is [kIdle] with empty strings.  The manager only calls
    [Address], [SetAddress], [SetName] and [SetState]. *)
Record NetworkDevice := {
  Address : string;
  Name : string;
  State : NetworkDeviceState
}.

Global Instance NetworkDevice_eq_dec : EqDecision NetworkDevice.
Proof. solve_decision. Defined.

Definition new_NetworkDevice : NetworkDevice :=
  {| Address := ""; Name := ""; State := kIdle |}.

Global Instance NetworkDevice_inhabited : Inhabited NetworkDevice :=
  populate new_NetworkDevice.

Definition with_Address (a : string) (d : NetworkDevice) : NetworkDevice :=
  {| Address := a; Name := Name d; State := State d |}.
Definition with_Name (n : string) (d : NetworkDevice) : NetworkDevice :=
  {| Address := Address d; Name := n; State := State d |}.
Definition with_State (st : NetworkDeviceState) (d : NetworkDevice) : NetworkDevice :=
  {| Address := Address d; Name := Name d; State := st |}.

(** [NetworkDevice::Ptr] is a [std::shared_ptr]: [None] is the null pointer,
    [Some l] points to the object stored at [l].  Two pointers to the same
    location alias the same peer. *)
Abbreviation Ptr := (option positive).

(** ** Requests *)

(** Modelled from the spec: the message codec ([WpaSupplicantMessage]) is not
    among the sources.  A request is its command token followed by the
    appended values, separated by single spaces (section 4.1, and the literal
    [P2P_CONNECT 4e:74:03:70:e2:c1 pbc] of scenario S2). *)
Record WpaSupplicantMessage := { get_raw : string }.

Global Instance WpaSupplicantMessage_eq_dec : EqDecision WpaSupplicantMessage.
Proof. solve_decision. Defined.

Definition CreateRequest (name : string) : WpaSupplicantMessage :=
  {| get_raw := name |}.

Definition Append (m : WpaSupplicantMessage) (value : string) : WpaSupplicantMessage :=
  {| get_raw := get_raw m +:+ " " +:+ value |}.

Notation "m << v" := (Append m v) (at level 50, left associativity).

(** The lambdas handed to [RequestAsync], named after the request they
    answer.  [kConnectReply] and [kDisconnectAllReply] are the two that
    assign the caller's local [ret]. *)
Inductive ReplyHandler :=
| kAttachReply
| kEmptyReply
| kConnectReply
| kDisconnectAllReply.

Global Instance ReplyHandler_eq_dec : EqDecision ReplyHandler.
Proof. solve_decision. Defined.

(** ** The GLib main context *)

Inductive GSourceFunc :=
| kOnConnectSupplicant
| kOnSupplicantRespawn
| kOnDeviceFailureTimeout
| kOnGroupClientDhcpTimeout.

Global Instance GSourceFunc_eq_dec : EqDecision GSourceFunc.
Proof. solve_decision. Defined.

Inductive GSource :=
| Timeout (interval_ms : N) (func : GSourceFunc)
| ChildWatch (pid : Z)
| IOWatch (fd : Z).

Global Instance GSource_eq_dec : EqDecision GSource.
Proof. solve_decision. Defined.

(** ** Constants of the anonymous namespace *)

Definition kDhcpIpAssignmentTimeout : N := 5000.
Definition kPeerFailureTimeout : N := 5000.
Definition kSupplicantRespawnLimit : N := 10.
Definition kSupplicantRespawnTimeout : N := 2000.
Definition kWpaSupplicantBinPath : string := "/sbin/wpa_supplicant".

(** [uint] arithmetic: 32 bits, wrapping. *)
Definition uint_modulus : N := 2 ^ 32.
Definition uint_dec (n : N) : N := ((n + (uint_modulus - 1)) mod uint_modulus)%N.

(** Conversion of a [guint] or [gboolean] to [int], as in [int err = ...]. *)
Definition int_of_uint (n : N) : Z :=
  let z := (Z.of_N n mod 2 ^ 32)%Z in
  if (z <? 2 ^ 31)%Z then z else (z - 2 ^ 32)%Z.

(** ** The manager *)

Record Manager := {
  (* members of WpaSupplicantNetworkManager *)
  delegate_ : bool;                       (* is the delegate pointer non-null *)
  interface_name_ : string;
  ctrl_path_ : string;
  available_devices_ : gmap string Ptr;
  current_peer_ : Ptr;
  dhcp_timeout_ : N;
  respawn_limit_ : N;
  respawn_source_ : N;
  is_group_owner_ : bool;
  supplicant_pid_ : Z;
  sock_ : Z;
  channel_ : bool;                        (* is the GIOChannel pointer non-null *)
  channel_watch_ : N;
  (* the command queue: the head entry is the request in flight *)
  command_queue_ : list (WpaSupplicantMessage * ReplyHandler);
  (* the objects the shared pointers point to *)
  heap : gmap positive NetworkDevice;
  (* the GLib main context: attached sources by id, and the next id *)
  sources : gmap positive GSource;
  next_source_id : positive
}.

Definition set_available_devices_ (v : gmap string Ptr) (s : Manager) : Manager :=
  Build_Manager (delegate_ s) (interface_name_ s) (ctrl_path_ s) v (current_peer_ s)
    (dhcp_timeout_ s) (respawn_limit_ s) (respawn_source_ s) (is_group_owner_ s)
    (supplicant_pid_ s) (sock_ s) (channel_ s) (channel_watch_ s) (command_queue_ s)
    (heap s) (sources s) (next_source_id s).

Definition set_current_peer_ (v : Ptr) (s : Manager) : Manager :=
  Build_Manager (delegate_ s) (interface_name_ s) (ctrl_path_ s) (available_devices_ s) v
    (dhcp_timeout_ s) (respawn_limit_ s) (respawn_source_ s) (is_group_owner_ s)
    (supplicant_pid_ s) (sock_ s) (channel_ s) (channel_watch_ s) (command_queue_ s)
    (heap s) (sources s) (next_source_id s).

Definition set_dhcp_timeout_ (v : N) (s : Manager) : Manager :=
  Build_Manager (delegate_ s) (interface_name_ s) (ctrl_path_ s) (available_devices_ s)
    (current_peer_ s) v (respawn_limit_ s) (respawn_source_ s) (is_group_owner_ s)
    (supplicant_pid_ s) (sock_ s) (channel_ s) (channel_watch_ s) (command_queue_ s)
    (heap s) (sources s) (next_source_id s).

Definition set_respawn_limit_ (v : N) (s : Manager) : Manager :=
  Build_Manager (delegate_ s) (interface_name_ s) (ctrl_path_ s) (available_devices_ s)
    (current_peer_ s) (dhcp_timeout_ s) v (respawn_source_ s) (is_group_owner_ s)
    (supplicant_pid_ s) (sock_ s) (channel_ s) (channel_watch_ s) (command_queue_ s)
    (heap s) (sources s) (next_source_id s).

Definition set_respawn_source_ (v : N) (s : Manager) : Manager :=
  Build_Manager (delegate_ s) (interface_name_ s) (ctrl_path_ s) (available_devices_ s)
    (current_peer_ s) (dhcp_timeout_ s) (respawn_limit_ s) v (is_group_owner_ s)
    (supplicant_pid_ s) (sock_ s) (channel_ s) (channel_watch_ s) (command_queue_ s)
    (heap s) (sources s) (next_source_id s).

Definition set_is_group_owner_ (v : bool) (s : Manager) : Manager :=
  Build_Manager (delegate_ s) (interface_name_ s) (ctrl_path_ s) (available_devices_ s)
    (current_peer_ s) (dhcp_timeout_ s) (respawn_limit_ s) (respawn_source_ s) v
    (supplicant_pid_ s) (sock_ s) (channel_ s) (channel_watch_ s) (command_queue_ s)
    (heap s) (sources s) (next_source_id s).

Definition set_supplicant_pid_ (v : Z) (s : Manager) : Manager :=
  Build_Manager (delegate_ s) (interface_name_ s) (ctrl_path_ s) (available_devices_ s)
    (current_peer_ s) (dhcp_timeout_ s) (respawn_limit_ s) (respawn_source_ s)
    (is_group_owner_ s) v (sock_ s) (channel_ s) (channel_watch_ s) (command_queue_ s)
    (heap s) (sources s) (next_source_id s).

Definition set_sock_ (v : Z) (s : Manager) : Manager :=
  Build_Manager (delegate_ s) (interface_name_ s) (ctrl_path_ s) (available_devices_ s)
    (current_peer_ s) (dhcp_timeout_ s) (respawn_limit_ s) (respawn_source_ s)
    (is_group_owner_ s) (supplicant_pid_ s) v (channel_ s) (channel_watch_ s)
    (command_queue_ s) (heap s) (sources s) (next_source_id s).

Definition set_channel_ (v : bool) (s : Manager) : Manager :=
  Build_Manager (delegate_ s) (interface_name_ s) (ctrl_path_ s) (available_devices_ s)
    (current_peer_ s) (dhcp_timeout_ s) (respawn_limit_ s) (respawn_source_ s)
    (is_group_owner_ s) (supplicant_pid_ s) (sock_ s) v (channel_watch_ s)
    (command_queue_ s) (heap s) (sources s) (next_source_id s).

Definition set_channel_watch_ (v : N) (s : Manager) : Manager :=
  Build_Manager (delegate_ s) (interface_name_ s) (ctrl_path_ s) (available_devices_ s)
    (current_peer_ s) (dhcp_timeout_ s) (respawn_limit_ s) (respawn_source_ s)
    (is_group_owner_ s) (supplicant_pid_ s) (sock_ s) (channel_ s) v
    (command_queue_ s) (heap s) (sources s) (next_source_id s).

Definition set_command_queue_ (v : list (WpaSupplicantMessage * ReplyHandler)) (s : Manager) : Manager :=
  Build_Manager (delegate_ s) (interface_name_ s) (ctrl_path_ s) (available_devices_ s)
    (current_peer_ s) (dhcp_timeout_ s) (respawn_limit_ s) (respawn_source_ s)
    (is_group_owner_ s) (supplicant_pid_ s) (sock_ s) (channel_ s) (channel_watch_ s)
    v (heap s) (sources s) (next_source_id s).

Definition set_heap (v : gmap positive NetworkDevice) (s : Manager) : Manager :=
  Build_Manager (delegate_ s) (interface_name_ s) (ctrl_path_ s) (available_devices_ s)
    (current_peer_ s) (dhcp_timeout_ s) (respawn_limit_ s) (respawn_source_ s)
    (is_group_owner_ s) (supplicant_pid_ s) (sock_ s) (channel_ s) (channel_watch_ s)
    (command_queue_ s) v (sources s) (next_source_id s).

Definition set_sources (v : gmap positive GSource) (s : Manager) : Manager :=
  Build_Manager (delegate_ s) (interface_name_ s) (ctrl_path_ s) (available_devices_ s)
    (current_peer_ s) (dhcp_timeout_ s) (respawn_limit_ s) (respawn_source_ s)
    (is_group_owner_ s) (supplicant_pid_ s) (sock_ s) (channel_ s) (channel_watch_ s)
    (command_queue_ s) (heap s) v (next_source_id s).

Definition set_next_source_id (v : positive) (s : Manager) : Manager :=
  Build_Manager (delegate_ s) (interface_name_ s) (ctrl_path_ s) (available_devices_ s)
    (current_peer_ s) (dhcp_timeout_ s) (respawn_limit_ s) (respawn_source_ s)
    (is_group_owner_ s) (supplicant_pid_ s) (sock_ s) (channel_ s) (channel_watch_ s)
    (command_queue_ s) (heap s) (sources s) v.

Arguments set_available_devices_ v !s /.
Arguments set_current_peer_ v !s /.
Arguments set_dhcp_timeout_ v !s /.
Arguments set_respawn_limit_ v !s /.
Arguments set_respawn_source_ v !s /.
Arguments set_is_group_owner_ v !s /.
Arguments set_supplicant_pid_ v !s /.
Arguments set_sock_ v !s /.
Arguments set_channel_ v !s /.
Arguments set_channel_watch_ v !s /.
Arguments set_command_queue_ v !s /.
Arguments set_heap v !s /.
Arguments set_sources v !s /.
Arguments set_next_source_id v !s /.

(** The peer a non-null pointer points to.  A [shared_ptr] keeps its object
    alive, so the read is total: a location the store does not list reads as
    a freshly constructed peer. *)
Definition peer_at (s : Manager) (l : positive) : NetworkDevice := heap s !!! l.

(** What a callee sees through a pointer at the time of the call. *)
Definition view (s : Manager) (p : Ptr) : option NetworkDevice :=
  peer_at s <$> p.

(** ** Calls on collaborators *)

Inductive DelegateCall :=
| OnDeviceFound (peer : Ptr) (seen : option NetworkDevice)
| OnDeviceLost (peer : Ptr) (seen : option NetworkDevice)
| OnDeviceStateChanged (peer : Ptr) (seen : option NetworkDevice).

Inductive Effect :=
| Delegate (call : DelegateCall)
| DhcpClientStart
| DhcpClientStop
| DhcpServerStart
| DhcpServerStop
| Send (fd : Z) (data : string)
| FirmwareTryLoad
| FileSetContents (path contents : string)
| RemoveAll (path : string)
| SpawnAsync (cmdline : string)
| SpawnClosePid (pid : Z)
| Remove (path : string)
| ChannelShutdown
| Close (fd : Z)
| SourceAttach (id : positive) (src : GSource)
| SourceRemove (tag : N).

(** ** The monad *)

Inductive outcome (A : Type) : Type :=
| Done (a : A) (s : Manager) (log : list Effect)
| Undefined.
Arguments Done {A} a s log.
Arguments Undefined {A}.

Definition M (A : Type) : Type := Manager → outcome A.

Global Instance M_ret : MRet M := λ A a s, Done a s [].

Global Instance M_bind : MBind M := λ A B f m s,
  match m s with
  | Done a s1 log1 =>
      match f a s1 with
      | Done b s2 log2 => Done b s2 (log1 ++ log2)
      | Undefined => Undefined
      end
  | Undefined => Undefined
  end.

Definition get : M Manager := λ s, Done s s [].
Definition modify (f : Manager → Manager) : M unit := λ s, Done () (f s) [].
Definition emit (e : Effect) : M unit := λ s, Done () s [e].
Definition undefined {A} : M A := λ _, Undefined.
Definition skip : M unit := mret ().
Definition when (b : bool) (m : M unit) : M unit := if b then m else skip.

(** [p->...] on a [shared_ptr]: undefined behaviour on the null pointer. *)
Definition deref (p : Ptr) : M positive :=
  match p with
  | Some l => mret l
  | None => undefined
  end.

(** [if (delegate_) delegate_->...]. *)
Definition notify (call : Manager → DelegateCall) : M unit :=
  s ← get;
  when (delegate_ s) (emit (Delegate (call s))).

Definition NotifyDeviceFound (p : Ptr) : M unit :=
  notify (λ s, OnDeviceFound p (view s p)).
Definition NotifyDeviceLost (p : Ptr) : M unit :=
  notify (λ s, OnDeviceLost p (view s p)).
Definition NotifyDeviceStateChanged (p : Ptr) : M unit :=
  notify (λ s, OnDeviceStateChanged p (view s p)).

(** Setters of [NetworkDevice], through a pointer. *)
Definition update_peer (f : NetworkDevice → NetworkDevice) (p : Ptr) : M unit :=
  l ← deref p;
  modify (λ s, set_heap (<[l := f (peer_at s l)]> (heap s)) s).

Definition SetAddress (p : Ptr) (a : string) : M unit := update_peer (with_Address a) p.
Definition SetName (p : Ptr) (n : string) : M unit := update_peer (with_Name n) p.
Definition SetState (p : Ptr) (st : NetworkDeviceState) : M unit :=
  update_peer (with_State st) p.

Definition GetAddress (p : Ptr) : M string :=
  l ← deref p;
  s ← get;
  mret (Address (peer_at s l)).

(** [new mcs::NetworkDevice]. *)
Definition NewNetworkDevice : M Ptr := λ s,
  let l := fresh (dom (heap s)) in
  Done (Some l) (set_heap (<[l := new_NetworkDevice]> (heap s)) s) [].

(** GLib: [g_timeout_add] attaches a source and returns its id, which is
    never 0; [g_source_remove] detaches the source with that id.  Both calls
    are logged as well. *)
Definition g_source_attach (src : GSource) : M N := λ s,
  let id := next_source_id s in
  Done (Npos id)
       (set_next_source_id (Pos.succ id) (set_sources (<[id := src]> (sources s)) s))
       [SourceAttach id src].

Definition g_timeout_add (interval_ms : N) (func : GSourceFunc) : M N :=
  g_source_attach (Timeout interval_ms func).

Definition g_source_remove (tag : N) : M unit :=
  emit (SourceRemove tag);;
  match tag with
  | N0 => skip
  | Npos id => modify (λ s, set_sources (delete id (sources s)) s)
  end.

(** ** The command queue *)

(** [OnWriteMessage]: one [send] on the control socket per request. *)
Definition OnWriteMessage (message : WpaSupplicantMessage) : M unit :=
  s ← get;
  emit (Send (sock_ s) (get_raw message)).

(** Modelled from the spec: [WpaSupplicantCommandQueue] is not among the
    sources.  Section 4.2: enqueue appends the entry and, if nothing is in
    flight, immediately writes the request; the reply handler stays with the
    entry and is invoked when the reply to that request comes in, after which
    the entry is popped and the next request, if any, is written. *)
Definition EnqueueCommand (message : WpaSupplicantMessage) (callback : ReplyHandler) : M unit :=
  s ← get;
  modify (set_command_queue_ (command_queue_ s ++ [(message, callback)]));;
  when (bool_decide (command_queue_ s = [])) (OnWriteMessage message).

(** What each lambda does with the reply it is given: the local [ret] it
    captured is its only target, no member is written. *)
Definition reply_assigns_ret (callback : ReplyHandler) (is_fail : bool) : bool :=
  match callback with
  | kConnectReply | kDisconnectAllReply => negb is_fail
  | kAttachReply | kEmptyReply => false
  end.

(** Modelled from the spec: the reply side of the queue's [HandleMessage].
    Returns the handler it invoked, if a request was in flight. *)
Definition HandleReply : M (option ReplyHandler) :=
  s ← get;
  match command_queue_ s with
  | [] => mret None
  | (_, callback) :: rest =>
      modify (set_command_queue_ rest);;
      match rest with
      | [] => skip
      | (next, _) :: _ => OnWriteMessage next
      end;;
      mret (Some callback)
  end.

Definition RequestAsync (message : WpaSupplicantMessage) (callback : ReplyHandler) : M unit :=
  EnqueueCommand message callback.

(** The handlers of [Connect] and [DisconnectAll] are lambdas that capture
    the caller's local [ret] by reference.  What the caller reads from [ret]
    after [RequestAsync] depends on the replies the queue ran the handler on
    before [EnqueueCommand] returned.  A queue is therefore given by its
    [EnqueueCommand], which acts on the manager and answers with these
    replies, each by its [IsFail], in the order the handler was run. *)
Definition CommandQueue : Type := WpaSupplicantMessage → ReplyHandler → M (list bool).

(** [ret] after the handler ran on one reply: [if (message.IsFail()) return;
    ret = true;]. *)
Definition ret_after_reply (callback : ReplyHandler) (ret is_fail : bool) : bool :=
  if reply_assigns_ret callback is_fail then true else ret.

(** [RequestAsync] on a given queue, and the local [ret] when it returns. *)
Definition RequestAsync_on (queue : CommandQueue) (message : WpaSupplicantMessage)
    (callback : ReplyHandler) (ret : bool) : M bool :=
  replies ← queue message callback;
  mret (foldl (ret_after_reply callback) ret replies).

(** Modelled from the spec: the queue of section 4.2 runs a handler when the
    reply to its request comes in, never inside [EnqueueCommand]. *)
Definition command_queue : CommandQueue := λ message callback,
  EnqueueCommand message callback;;
  mret [].

(** ** Unsolicited events

    The handlers take the fields that [message.Read] decodes (the codec is
    not among the sources): the address, name and config methods of
    [P2P-DEVICE-FOUND], the address of [P2P-DEVICE-LOST], the role token of
    [P2P-GROUP-STARTED], the reason of [P2P-GROUP-REMOVED]. *)

(** The loop of [OnP2pDeviceFound] over the table entries, in the
    container's iteration order; [true] when it returned from inside.  The
    header that fixes the container is not among the sources, so the order
    is not known: [map_to_list] stands for it, and what is proved of the
    loop does not depend on the choice (on a well-formed table at most one
    entry can carry the address; with a null entry the result is shown for
    every order). *)
Fixpoint update_known_peer (entries : list (string * Ptr)) (address name : string) : M bool :=
  match entries with
  | [] => mret false
  | (_, peer) :: rest =>
      a ← GetAddress peer;
      if bool_decide (a ≠ address) then update_known_peer rest address name
      else
        SetAddress peer address;;
        SetName peer name;;
        mret true
  end.

Definition OnP2pDeviceFound (address name config_methods_str : string) : M unit :=
  s ← get;
  updated ← update_known_peer (map_to_list (available_devices_ s)) address name;
  if updated : bool then skip
  else
    peer ← NewNetworkDevice;
    SetAddress peer address;;
    SetName peer name;;
    modify (λ s, set_available_devices_ (<[address := peer]> (available_devices_ s)) s);;
    NotifyDeviceFound peer.

(** [available_devices_[key]]: the subscript operator of the standard map
    containers inserts a null pointer under a key it does not find. *)
Definition subscript (key : string) : M Ptr :=
  s ← get;
  match available_devices_ s !! key with
  | Some p => mret p
  | None =>
      modify (set_available_devices_ (<[key := None]> (available_devices_ s)));;
      mret None
  end.

Definition OnP2pDeviceLost (address : string) : M unit :=
  peer ← subscript address;
  match peer with
  | None => skip
  | Some _ => NotifyDeviceLost peer
  end.

Definition OnP2pGroupStarted (role : string) : M unit :=
  s ← get;
  match current_peer_ s with
  | None => skip
  | Some _ =>
      SetState (current_peer_ s) kConfiguration;;
      NotifyDeviceStateChanged (current_peer_ s);;
      if bool_decide (role = "GO") then
        modify (set_is_group_owner_ true);;
        SetState (current_peer_ s) kConnected;;
        emit DhcpServerStart;;
        NotifyDeviceStateChanged (current_peer_ s)
      else
        modify (set_is_group_owner_ false);;
        emit DhcpClientStart;;
        id ← g_timeout_add kDhcpIpAssignmentTimeout kOnGroupClientDhcpTimeout;
        modify (set_dhcp_timeout_ id)
  end.

(** The static look-up table of [OnP2pGroupRemoved]. *)
Definition lut : gmap string NetworkDeviceState :=
  list_to_map [("FORMATION_FAILED", kFailure); ("PSK_FAILURE", kFailure);
               ("FREQ_CONFLICT", kFailure)].

Definition OnP2pGroupRemoved (reason : string) : M unit :=
  s ← get;
  match current_peer_ s with
  | Some _ => skip
  | None =>
      SetState (current_peer_ s)
        (match lut !! reason with Some st => st | None => kDisconnected end);;
      NotifyDeviceStateChanged (current_peer_ s);;
      modify (set_current_peer_ None)
  end.

(** ** DHCP callbacks and timers *)

Definition OnAddressAssigned (address : string) : M unit :=
  s ← get;
  match current_peer_ s with
  | None => skip
  | Some _ =>
      when (0 <? dhcp_timeout_ s)%N
        (g_source_remove (dhcp_timeout_ s);; modify (set_dhcp_timeout_ 0));;
      SetState (current_peer_ s) kConnected;;
      NotifyDeviceStateChanged (current_peer_ s)
  end.

(** Both timer callbacks return [FALSE]: the source is not to fire again. *)
Definition OnDeviceFailureTimeout : M bool :=
  s ← get;
  SetState (current_peer_ s) kIdle;;
  mret false.

Definition OnGroupClientDhcpTimeout : M bool :=
  s ← get;
  match current_peer_ s with
  | None => mret false
  | Some _ =>
      SetState (current_peer_ s) kFailure;;
      g_timeout_add kPeerFailureTimeout kOnDeviceFailureTimeout;;
      NotifyDeviceStateChanged (current_peer_ s);;
      mret false
  end.

(** ** Reset *)

Fixpoint lose_all (entries : list (string * Ptr)) : M unit :=
  match entries with
  | [] => skip
  | (_, peer) :: rest =>
      s ← get;
      emit (Delegate (OnDeviceLost peer (view s peer)));;
      lose_all rest
  end.

Definition Reset : M unit :=
  s ← get;
  match current_peer_ s with
  | Some _ =>
      SetState (current_peer_ s) kDisconnected;;
      NotifyDeviceStateChanged (current_peer_ s);;
      modify (set_current_peer_ None);;
      when (0 <? dhcp_timeout_ s)%N
        (g_source_remove (dhcp_timeout_ s);; modify (set_dhcp_timeout_ 0));;
      emit DhcpClientStop;;
      emit DhcpServerStop
  | None => skip
  end;;
  when (delegate_ s) (lose_all (map_to_list (available_devices_ s)));;
  modify (set_available_devices_ ∅);;
  modify (set_is_group_owner_ false).

(** ** The supplicant supervisor *)

(** What the operating system, GLib and the firmware loader answer to the
    calls a member function makes. *)
Record Env := {
  firmware_is_needed : bool;        (* firmware_loader_.IsNeeded() *)
  firmware_try_load : bool;         (* firmware_loader_.TryLoad() *)
  file_set_contents_ok : bool;      (* g_file_set_contents(...) *)
  spawn_ok : bool;                  (* g_spawn_async(...), a gboolean *)
  spawn_pid : Z;                    (* the child pid it stores on success *)
  socket_fd : Z;                    (* ::socket(...) *)
  local_path_exists : bool;         (* g_file_test(local_path, EXISTS) *)
  bind_ret : Z;                     (* ::bind(...) *)
  connect_ret : Z;                  (* ::connect(...) *)
  getpid : Z
}.

Definition newline : string := String (Ascii.ascii_of_nat 10) "".

Definition CreateSupplicantConfig (env : Env) (conf_path : string) : M bool :=
  emit (FileSetContents conf_path
          ("# GENERATED - DO NOT EDIT!" +:+ newline +:+ "config_methods=pbc" +:+ newline
           +:+ "ap_scan=1" +:+ newline +:+ "device_name=unknown"));;
  mret (file_set_contents_ok env).

Definition StopSupplicant : M unit :=
  s ← get;
  if (supplicant_pid_ s <? 0)%Z then skip
  else
    emit (SpawnClosePid (supplicant_pid_ s));;
    modify (set_supplicant_pid_ 0).

(** [g_spawn_async] returns a [gboolean] and [g_child_watch_add] a [guint];
    both are stored in [int err] and tested with [err < 0]. *)
Definition StartSupplicant (env : Env) : M bool :=
  s ← get;
  let conf_path := "/tmp/supplicant-" +:+ interface_name_ s +:+ ".conf" in
  created ← CreateSupplicantConfig env conf_path;
  if negb created then mret false
  else
    emit (RemoveAll (ctrl_path_ s));;
    let cmdline := kWpaSupplicantBinPath +:+ " -Dnl80211 -i" +:+ interface_name_ s
                   +:+ " -C" +:+ ctrl_path_ s +:+ " -ddd -t -K -c" +:+ conf_path +:+ " -W" in
    emit (SpawnAsync cmdline);;
    when (spawn_ok env) (modify (set_supplicant_pid_ (spawn_pid env)));;
    let err := int_of_uint (if spawn_ok env then 1 else 0) in
    if (err <? 0)%Z then mret false
    else
      s ← get;
      id ← g_source_attach (ChildWatch (supplicant_pid_ s));
      let err := int_of_uint id in
      if (err <? 0)%Z then StopSupplicant;; mret false
      else
        g_timeout_add 500 kOnConnectSupplicant;;
        mret true.

Definition DisconnectSupplicant : M unit :=
  s ← get;
  if (sock_ s <? 0)%Z then skip
  else
    when (channel_ s) (emit ChannelShutdown;; modify (set_channel_ false));;
    when (0 <? channel_watch_ s)%N
      (g_source_remove (channel_watch_ s);; modify (set_channel_watch_ 0));;
    when (0 <? sock_ s)%Z (emit (Close (sock_ s));; modify (set_sock_ 0)).

(** The loop of [SetWfdSubElements], with its counter [n]. *)
Fixpoint set_wfd_sub_elements_from (n : Z) (elements : list string) : M unit :=
  match elements with
  | [] => skip
  | element :: rest =>
      RequestAsync (CreateRequest "WFD_SUBELEM_SET" << pretty n << element) kEmptyReply;;
      set_wfd_sub_elements_from (n + 1) rest
  end.

Definition SetWfdSubElements (elements : list string) : M unit :=
  set_wfd_sub_elements_from 0 elements.

Definition ConnectSupplicant (env : Env) : M bool :=
  modify (set_sock_ (socket_fd env));;
  s ← get;
  if (sock_ s <? 0)%Z then mret false
  else
    let local_path := "/tmp/p2p0-" +:+ pretty (getpid env) in
    when (local_path_exists env) (emit (Remove local_path));;
    if (bind_ret env <? 0)%Z then mret false
    else if (connect_ret env <? 0)%Z then mret false
    else
      modify (set_channel_ true);;
      id ← g_source_attach (IOWatch (sock_ s));
      modify (set_channel_watch_ id);;
      if (id =? 0)%N then mret false
      else
        RequestAsync (CreateRequest "ATTACH") kAttachReply;;
        RequestAsync (CreateRequest "SET" << "wifi_display" << pretty 1%Z) kEmptyReply;;
        SetWfdSubElements ["000600101C440032"];;
        modify (set_respawn_limit_ kSupplicantRespawnLimit);;
        mret true.

(** If the connect fails the source fires again. *)
Definition OnConnectSupplicant (env : Env) : M bool :=
  connected ← ConnectSupplicant env;
  mret (negb connected).

Definition OnSupplicantRespawn (env : Env) : M bool :=
  started ← StartSupplicant env;
  s ← get;
  if negb started && (0 <? respawn_limit_ s)%N then
    modify (set_respawn_limit_ (uint_dec (respawn_limit_ s)));;
    mret true
  else mret false.

Definition HandleSupplicantFailed : M unit :=
  s ← get;
  when (0 <? respawn_limit_ s)%N
    (when (negb (respawn_source_ s =? 0)%N) (g_source_remove (respawn_source_ s));;
     id ← g_timeout_add kSupplicantRespawnTimeout kOnSupplicantRespawn;
     modify (set_respawn_source_ id);;
     modify (set_respawn_limit_ (uint_dec (respawn_limit_ s))));;
  DisconnectSupplicant;;
  StopSupplicant;;
  Reset.

(** [g_spawn_check_exit_status] accepts exactly the exit status 0. *)
Definition OnSupplicantWatch (pid status : Z) : M unit :=
  if bool_decide (status = 0%Z) then skip else HandleSupplicantFailed.

Definition Setup (env : Env) : M bool :=
  if negb (firmware_is_needed env) then StartSupplicant env
  else emit FirmwareTryLoad;; mret (firmware_try_load env).

Definition OnFirmwareLoaded (env : Env) : M unit :=
  StartSupplicant env;; skip.

Definition OnFirmwareUnloaded : M unit :=
  StopSupplicant;;
  emit FirmwareTryLoad.

(** [OnIncomingMessages] on [G_IO_HUP]. *)
Definition OnIncomingHangup : M bool :=
  StopSupplicant;; mret true.

(** ** Operations for the upper layers *)

Definition Running (s : Manager) : bool := (0 <? supplicant_pid_ s)%Z.

(** The pointers of the table, in the container's iteration order, for
    which [map_to_list] stands as in the loop of [OnP2pDeviceFound]. *)
Definition Devices (s : Manager) : list Ptr := (map_to_list (available_devices_ s)).*2.

Definition Scan (timeout : N) : M unit :=
  RequestAsync (CreateRequest "P2P_FIND" << pretty timeout) kEmptyReply.

(** [Connect] and [DisconnectAll], over the queue they hand their request
    to: the value returned is the local [ret] as the handler left it. *)
Definition Connect_on (queue : CommandQueue) (device : Ptr) : M bool :=
  address ← GetAddress device;
  s ← get;
  if bool_decide (available_devices_ s !! address = None) then mret false
  else
    match current_peer_ s with
    | Some _ => mret false
    | None =>
        peer ← subscript address;
        modify (set_current_peer_ peer);;
        let m := CreateRequest "P2P_CONNECT" << address << "pbc" in
        let ret := false in
        ret ← RequestAsync_on queue m kConnectReply ret;
        mret ret
    end.

Definition DisconnectAll_on (queue : CommandQueue) : M bool :=
  s ← get;
  let m := CreateRequest "P2P_GROUP_REMOVE" << interface_name_ s in
  let ret := false in
  ret ← RequestAsync_on queue m kDisconnectAllReply ret;
  mret ret.

(** The two on the manager's own queue. *)
Definition Connect (device : Ptr) : M bool := Connect_on command_queue device.

Definition DisconnectAll : M bool := DisconnectAll_on command_queue.

(** The manager as its constructor leaves it, with the two members the
    constructor does not initialise given by the caller. *)
Definition initial (delegate : bool) (pid sock : Z) : Manager :=
  {| delegate_ := delegate;
     interface_name_ := "p2p0";
     ctrl_path_ := "/var/run/p2p0_supplicant";
     available_devices_ := ∅;
     current_peer_ := None;
     dhcp_timeout_ := 0;
     respawn_limit_ := kSupplicantRespawnLimit;
     respawn_source_ := 0;
     is_group_owner_ := false;
     supplicant_pid_ := pid;
     sock_ := sock;
     channel_ := false;
     channel_watch_ := 0;
     command_queue_ := [];
     heap := ∅;
     sources := ∅;
     next_source_id := 1 |}.

(** ** The event loop *)

Definition run_source_func (env : Env) (func : GSourceFunc) : M bool :=
  match func with
  | kOnConnectSupplicant => OnConnectSupplicant env
  | kOnSupplicantRespawn => OnSupplicantRespawn env
  | kOnDeviceFailureTimeout => OnDeviceFailureTimeout
  | kOnGroupClientDhcpTimeout => OnGroupClientDhcpTimeout
  end.

(** GLib dispatches a due timeout source: the callback runs, and the source
    is destroyed when the callback returns [FALSE]. *)
Definition dispatch_timeout (env : Env) (id : positive) : M unit :=
  s ← get;
  match sources s !! id with
  | Some (Timeout _ func) =>
      again ← run_source_func env func;
      if again : bool then skip else g_source_remove (Npos id)
  | _ => skip
  end.

(** Everything that can run on the manager: the entry points the upper
    layers call and the callbacks the event loop delivers. *)
Inductive Op :=
| OpSetup
| OpFirmwareLoaded
| OpFirmwareUnloaded
| OpP2pDeviceFound (address name config_methods_str : string)
| OpP2pDeviceLost (address : string)
| OpP2pGroupStarted (role : string)
| OpP2pGroupRemoved (reason : string)
| OpReply
| OpIncomingHangup
| OpConnectSupplicant
| OpSupplicantWatch (pid status : Z)
| OpSupplicantRespawn
| OpAddressAssigned (address : string)
| OpDeviceFailureTimeout
| OpGroupClientDhcpTimeout
| OpScan (timeout : N)
| OpConnect (device : Ptr)
| OpDisconnectAll.

Global Instance Op_eq_dec : EqDecision Op.
Proof. solve_decision. Defined.

Definition forget {A} (m : M A) : M unit := m;; skip.

Definition run (env : Env) (op : Op) : M unit :=
  match op with
  | OpSetup => forget (Setup env)
  | OpFirmwareLoaded => OnFirmwareLoaded env
  | OpFirmwareUnloaded => OnFirmwareUnloaded
  | OpP2pDeviceFound address name cm => OnP2pDeviceFound address name cm
  | OpP2pDeviceLost address => OnP2pDeviceLost address
  | OpP2pGroupStarted role => OnP2pGroupStarted role
  | OpP2pGroupRemoved reason => OnP2pGroupRemoved reason
  | OpReply => forget HandleReply
  | OpIncomingHangup => forget OnIncomingHangup
  | OpConnectSupplicant => forget (OnConnectSupplicant env)
  | OpSupplicantWatch pid status => OnSupplicantWatch pid status
  | OpSupplicantRespawn => forget (OnSupplicantRespawn env)
  | OpAddressAssigned address => OnAddressAssigned address
  | OpDeviceFailureTimeout => forget OnDeviceFailureTimeout
  | OpGroupClientDhcpTimeout => forget OnGroupClientDhcpTimeout
  | OpScan timeout => Scan timeout
  | OpConnect device => forget (Connect device)
  | OpDisconnectAll => forget DisconnectAll
  end.

(** ** Vocabulary of the statements *)

(** The delegate calls a handler makes, as they show in the log: none when
    no delegate is attached. *)
Definition delegate_calls (s : Manager) (calls : list DelegateCall) : list Effect :=
  if delegate_ s then Delegate <$> calls else [].

(** The sources a run attached to the main context, read off its log. *)
Definition attached (log : list Effect) : list (positive * GSource) :=
  omap (λ e, match e with SourceAttach id src => Some (id, src) | _ => None end) log.

Definition dhcp_timeout_source : GSource :=
  Timeout kDhcpIpAssignmentTimeout kOnGroupClientDhcpTimeout.
Definition peer_failure_source : GSource :=
  Timeout kPeerFailureTimeout kOnDeviceFailureTimeout.
Definition respawn_source : GSource :=
  Timeout kSupplicantRespawnTimeout kOnSupplicantRespawn.

Definition connect_request (address : string) : WpaSupplicantMessage :=
  CreateRequest "P2P_CONNECT" << address << "pbc".

(** A request goes out on the socket at once when no other is in flight. *)
Definition written_now (s : Manager) (m : WpaSupplicantMessage) : list Effect :=
  if bool_decide (command_queue_ s = []) then [Send (sock_ s) (get_raw m)] else [].

(** The peer table as the data model has it: every entry is a peer, filed
    under its own address. *)
Definition table_well_formed (s : Manager) : Prop :=
  ∀ key peer, available_devices_ s !! key = Some peer →
    ∃ l, peer = Some l ∧ Address (peer_at s l) = key.

(** The same with the peers in the store: no entry is null, none dangles,
    each peer carries the address it is filed under. *)
Definition table_sound (s : Manager) : Prop :=
  ∀ key peer, available_devices_ s !! key = Some peer →
    ∃ l d, peer = Some l ∧ heap s !! l = Some d ∧ Address d = key.

(** Partial correctness against a relation between the state before, the
    state after and the log. *)
Definition post {A} (R : Manager → Manager → list Effect → Prop) (m : M A) : Prop :=
  ∀ s a s' log, m s = Done a s' log → R s s' log.

(** The respawn budget does not grow. *)
Definition limit_kept (s s' : Manager) (log : list Effect) : Prop :=
  (respawn_limit_ s' ≤ respawn_limit_ s)%N.

(** A sound peer table stays sound. *)
Definition sound_kept (s s' : Manager) (log : list Effect) : Prop :=
  table_sound s → table_sound s'.

(** The states of the scenarios: one peer discovered (S1), and the same
    after [connect] (S2). *)
Definition aquaris : string := "4e:74:03:70:e2:c1".

Definition aquaris_peer (st : NetworkDeviceState) : NetworkDevice :=
  {| Address := aquaris; Name := "Aquaris M10"; State := st |}.

Definition s_discovered : Manager :=
  set_heap {[ 1%positive := aquaris_peer kIdle ]}
    (set_available_devices_ {[ aquaris := Some 1%positive ]} (initial true 0 0)).

Definition s_connecting : Manager :=
  set_command_queue_ [(connect_request aquaris, kConnectReply)]
    (set_current_peer_ (Some 1%positive) s_discovered).

Definition default_env : Env :=
  {| firmware_is_needed := false; firmware_try_load := true; file_set_contents_ok := true;
     spawn_ok := true; spawn_pid := 4242; socket_fd := 7; local_path_exists := false;
     bind_ret := 0; connect_ret := 0; getpid := 4000 |}.

(** ** Vocabulary of the further properties *)

(** A peer as [OnP2pDeviceFound] creates it. *)
Definition new_peer (address name : string) : NetworkDevice :=
  {| Address := address; Name := name; State := kIdle |}.

(** The peers the delegate was told are lost, read off a log. *)
Definition lost (log : list Effect) : list Ptr :=
  omap (λ e, match e with Delegate (OnDeviceLost peer _) => Some peer | _ => None end) log.

(** The paths of the configuration files written, read off a log. *)
Definition config_writes (log : list Effect) : list string :=
  omap (λ e, match e with FileSetContents path _ => Some path | _ => None end) log.

(** Whether [socket], [bind] and [connect] all succeed. *)
Definition connect_ok (env : Env) : bool :=
  (0 <=? socket_fd env)%Z && (0 <=? bind_ret env)%Z && (0 <=? connect_ret env)%Z.

(** The requests a successful [ConnectSupplicant] hands to the queue. *)
Definition attach_requests : list (WpaSupplicantMessage * ReplyHandler) :=
  [({| get_raw := "ATTACH" |}, kAttachReply);
   ({| get_raw := "SET wifi_display 1" |}, kEmptyReply);
   ({| get_raw := "WFD_SUBELEM_SET 0 000600101C440032" |}, kEmptyReply)].

(** The request of [SetWfdSubElements] for the element numbered [n]. *)
Definition wfd_request (n : Z) (element : string) : WpaSupplicantMessage * ReplyHandler :=
  (CreateRequest "WFD_SUBELEM_SET" << pretty n << element, kEmptyReply).

(** [n] dispatches in a row of the timeout source [id]. *)
Fixpoint dispatch_times (env : Env) (id : positive) (n : nat) : M unit :=
  match n with
  | O => skip
  | S n => dispatch_timeout env id;; dispatch_times env id n
  end.

(** An environment in which the supplicant cannot be spawned, and one in
    which its configuration file cannot be written. *)
Definition no_spawn_env : Env :=
  {| firmware_is_needed := false; firmware_try_load := true; file_set_contents_ok := true;
     spawn_ok := false; spawn_pid := 0; socket_fd := 7; local_path_exists := false;
     bind_ret := 0; connect_ret := 0; getpid := 4000 |}.

Definition no_config_env : Env :=
  {| firmware_is_needed := false; firmware_try_load := true; file_set_contents_ok := false;
     spawn_ok := true; spawn_pid := 4242; socket_fd := 7; local_path_exists := false;
     bind_ret := 0; connect_ret := 0; getpid := 4000 |}.

(** A manager whose supplicant died with a budget of two respawns left. *)
Definition s_respawning : Manager :=
  set_sources {[ 1%positive := respawn_source ]}
    (set_respawn_source_ 1 (set_respawn_limit_ 2 (initial true 0 0))).

(** At most one respawn timer: every respawn source in the main context is
    the one whose id the manager stores. *)
Definition one_respawn_source (s : Manager) : Prop :=
  ∀ id interval, sources s !! id = Some (Timeout interval kOnSupplicantRespawn) →
    respawn_source_ s = Npos id.

(** No respawn source is added and the stored id stays. *)
Definition respawn_kept (s s' : Manager) (log : list Effect) : Prop :=
  respawn_source_ s' = respawn_source_ s ∧
  ∀ id interval, sources s' !! id = Some (Timeout interval kOnSupplicantRespawn) →
    sources s !! id = Some (Timeout interval kOnSupplicantRespawn).

(** The manager after a successful [StartSupplicant]. *)
Definition s_started : Manager :=
  set_sources {[ 1%positive := ChildWatch 4242; 2%positive := Timeout 500 kOnConnectSupplicant ]}
    (set_next_source_id 3 (initial true 4242 (-1))).

(** A second peer, not in the table of [s_discovered]. *)
Definition tv_address : string := "02:00:00:00:01:00".

(** ** The D-Bus skeleton of the controller

    The part of [src/mcs/miracastcontrollerskeleton.cpp] that keeps the
    device adapters and names their object paths. *)

Module Skeleton.
Import Stdlib.Strings.Ascii.

(** [std::replace(first, last, old_value, new_value)] on a string. *)
Fixpoint replace (old_value new_value : ascii) (s : string) : string :=
  match s with
  | EmptyString => EmptyString
  | String c rest =>
      String (if Ascii.eqb c old_value then new_value else c)
             (replace old_value new_value rest)
  end.

(** [s.c_str()] as the conversion [%s] reads it: the characters before the
    first zero byte. *)
Fixpoint c_str (s : string) : string :=
  match s with
  | EmptyString => EmptyString
  | String c rest => if Ascii.eqb c "000"%char then EmptyString else String c (c_str rest)
  end.

(** [GenerateDevicePath], of the peer the pointer points to: the colons of
    the address are replaced in the [std::string], which is then formatted
    through [c_str()] and [%s] ([mcs::Utils::Sprintf] is not among the
    sources; it is taken to format as [printf] does). *)
Definition GenerateDevicePath (device : NetworkDevice) : string :=
  "/org/aethercast/dev_" +:+ c_str (replace ":"%char "_"%char (Address device)).

(** [::tolower] in the C locale. *)
Definition tolower (c : ascii) : ascii :=
  let n := N_of_ascii c in
  if (65 <=? n)%N && (n <=? 90)%N then ascii_of_N (n + 32) else c.

(** [std::transform(first, last, first, op)] on a string. *)
Fixpoint transform (op : ascii → ascii) (s : string) : string :=
  match s with
  | EmptyString => EmptyString
  | String c rest => String (op c) (transform op rest)
  end.

Definition HyphenNameFromPropertyName (property_name : string) : string :=
  transform tolower property_name.

(** The calls made on the D-Bus object manager and on the adapters. *)
Inductive BusCall :=
| Export (path : string)
| Unexport (path : string)
| SyncProperties (path : string).

(** A device adapter as [mcs/networkdeviceadapter.h] declares it: it keeps
    the path and the device pointer it was created with; its implementation
    file is not among the sources. *)
Record NetworkDeviceSkeleton := { Path : string; device_ : Ptr }.

(** The handlers work on the member [devices_], which is keyed by address.
    [read] is the store the device pointers point into; a handler ends in
    [None] where the C++ dereferences a null pointer.  The [insert] of the
    standard map containers keeps an entry that is already there. *)
Definition OnDeviceFound (read : positive → NetworkDevice) (device : Ptr)
    (devices_ : gmap string NetworkDeviceSkeleton) :
    option (gmap string NetworkDeviceSkeleton * list BusCall) :=
  l ← device;
  let path := GenerateDevicePath (read l) in
  let adapter := {| Path := path; device_ := device |} in
  Some (match devices_ !! Address (read l) with
        | Some _ => devices_
        | None => <[Address (read l) := adapter]> devices_
        end,
        [Export (Path adapter)]).

Definition OnDeviceLost (read : positive → NetworkDevice) (device : Ptr)
    (devices_ : gmap string NetworkDeviceSkeleton) :
    option (gmap string NetworkDeviceSkeleton * list BusCall) :=
  l ← device;
  match devices_ !! Address (read l) with
  | None => Some (devices_, [])
  | Some adapter => Some (delete (Address (read l)) devices_, [Unexport (Path adapter)])
  end.

Definition OnDeviceChanged (read : positive → NetworkDevice) (peer : Ptr)
    (devices_ : gmap string NetworkDeviceSkeleton) :
    option (gmap string NetworkDeviceSkeleton * list BusCall) :=
  l ← peer;
  match devices_ !! Address (read l) with
  | None => Some (devices_, [])
  | Some adapter => Some (devices_, [SyncProperties (Path adapter)])
  end.

(** Every character of the string passes the test. *)
Fixpoint all_chars (test : ascii → bool) (s : string) : bool :=
  match s with
  | EmptyString => true
  | String c rest => test c && all_chars test rest
  end.

Definition is_digit (c : ascii) : bool :=
  let n := N_of_ascii c in (48 <=? n)%N && (n <=? 57)%N.
Definition is_upper (c : ascii) : bool :=
  let n := N_of_ascii c in (65 <=? n)%N && (n <=? 90)%N.
Definition is_lower (c : ascii) : bool :=
  let n := N_of_ascii c in (97 <=? n)%N && (n <=? 122)%N.

(** Neither the underscore nor the zero byte. *)
Definition is_plain_char (c : ascii) : bool :=
  negb (Ascii.eqb c "_"%char) && negb (Ascii.eqb c "000"%char).

(** The characters of a hardware address as the supplicant prints it, and
    more: letters, digits and the colon. *)
Definition is_address_char (c : ascii) : bool :=
  is_digit c || is_upper c || is_lower c || Ascii.eqb c ":"%char.

(** The characters the D-Bus specification allows in an object path. *)
Definition is_path_char (c : ascii) : bool :=
  is_digit c || is_upper c || is_lower c || Ascii.eqb c "_"%char || Ascii.eqb c "/"%char.

(** Every adapter sits under the address its path was generated from. *)
Definition paths_agree (devices_ : gmap string NetworkDeviceSkeleton) : Prop :=
  ∀ address adapter, devices_ !! address = Some adapter →
    Path adapter = "/org/aethercast/dev_" +:+ c_str (replace ":"%char "_"%char address).

End Skeleton.

(** ** Proof tools *)

Ltac unfold_m :=
  unfold NotifyDeviceFound, NotifyDeviceLost, NotifyDeviceStateChanged, notify,
    SetState, SetName, SetAddress, GetAddress, update_peer, deref, g_timeout_add,
    g_source_attach, g_source_remove, RequestAsync, EnqueueCommand, OnWriteMessage,
    subscript, when, skip, get, modify, emit, undefined, forget,
    mbind, mret, M_bind, M_ret in *.

Ltac crush :=
  repeat (progress (simpl in *; unfold peer_at, view in *; simpl in *;
                    rewrite ?lookup_total_insert_eq in * )).

(** * Basic facts *)

Lemma peer_at_insert_eq s h l d : peer_at (set_heap (<[l := d]> h) s) l = d.
Proof. unfold peer_at. simpl. apply lookup_total_insert_eq. Qed.

Lemma peer_at_insert_ne s h l l' d :
  l ≠ l' → peer_at (set_heap (<[l := d]> h) s) l' = h !!! l'.
Proof. intros. unfold peer_at. simpl. by apply lookup_total_insert_ne. Qed.

Lemma attached_app log1 log2 : attached (log1 ++ log2) = attached log1 ++ attached log2.
Proof. unfold attached. apply omap_app. Qed.

Lemma attached_Delegate calls : attached (Delegate <$> calls) = [].
Proof. induction calls; [done|]. simpl. done. Qed.

Lemma attached_delegate_calls s calls : attached (delegate_calls s calls) = [].
Proof. unfold delegate_calls. destruct (delegate_ s); [apply attached_Delegate|done]. Qed.

Lemma uint_dec_le n : (0 < n)%N → (uint_dec n ≤ n)%N.
Proof.
  intros Hn. unfold uint_dec, uint_modulus.
  destruct (decide (n < 2 ^ 32)%N) as [Hlt|Hge].
  - replace (n + (2 ^ 32 - 1))%N with ((n - 1) + 1 * 2 ^ 32)%N by lia.
    rewrite N.Div0.mod_add. rewrite N.mod_small by lia. lia.
  - pose proof (N.mod_upper_bound (n + (2 ^ 32 - 1)) (2 ^ 32)) as H. lia.
Qed.

Lemma uint_dec_pred n : (0 < n < uint_modulus)%N → uint_dec n = (n - 1)%N.
Proof.
  intros Hn. unfold uint_dec, uint_modulus in *.
  replace (n + (2 ^ 32 - 1))%N with ((n - 1) + 1 * 2 ^ 32)%N by lia.
  rewrite N.Div0.mod_add. rewrite N.mod_small by lia. lia.
Qed.

(** The request of [connect] is the literal text of section 6. *)
Lemma connect_request_raw address :
  get_raw (connect_request address) = "P2P_CONNECT " +:+ address +:+ " pbc".
Proof. reflexivity. Qed.

(** The scenario states are the ones the handlers produce. *)
Example s_discovered_reached :
  OnP2pDeviceFound aquaris "Aquaris M10" "0x188" (initial true 0 0) =
    Done () s_discovered
      [Delegate (OnDeviceFound (Some 1%positive) (Some (aquaris_peer kIdle)))].
Proof. vm_compute. reflexivity. Qed.

Example s_connecting_reached :
  Connect (Some 1%positive) s_discovered =
    Done false s_connecting [Send 0 "P2P_CONNECT 4e:74:03:70:e2:c1 pbc"].
Proof. vm_compute. reflexivity. Qed.

(** * Relational postconditions

    The rules by which a postcondition of a member function follows from
    those of the calls it makes, for a relation that holds of doing nothing
    and composes along a sequence. *)

Section post.
Variable R : Manager → Manager → list Effect → Prop.
Hypothesis R_refl : ∀ s, R s s [].
Hypothesis R_trans : ∀ s1 s2 s3 log1 log2,
  R s1 s2 log1 → R s2 s3 log2 → R s1 s3 (log1 ++ log2).

Lemma post_ret {A} (a : A) : post R (mret a).
Proof. intros s a' s' log [= _ <- <-]. apply R_refl. Qed.

Lemma post_skip : post R skip.
Proof. apply post_ret. Qed.

Lemma post_get : post R get.
Proof. intros s a' s' log [= _ <- <-]. apply R_refl. Qed.

Lemma post_undefined {A} : post R (@undefined A).
Proof. intros s a' s' log [=]. Qed.

Lemma post_bind {A B} (m : M A) (f : A → M B) :
  post R m → (∀ a, post R (f a)) → post R (m ≫= f).
Proof.
  intros Hm Hf s b s' log. unfold mbind, M_bind.
  destruct (m s) as [a s1 log1|] eqn:Hms; [|done].
  destruct (f a s1) as [b' s2 log2|] eqn:Hfs; [|done].
  intros [= _ <- <-]. eapply R_trans; [by eapply Hm|by eapply Hf].
Qed.

Lemma post_modify (f : Manager → Manager) :
  (∀ s, R s (f s) []) → post R (modify f).
Proof. intros Hf s a' s' log [= _ <- <-]. apply Hf. Qed.

Lemma post_emit (e : Effect) :
  (∀ s, R s s [e]) → post R (emit e).
Proof. intros He s a' s' log [= _ <- <-]. apply He. Qed.

Lemma post_when (b : bool) (m : M unit) : post R m → post R (when b m).
Proof. destruct b; [done|]. intros _. apply post_skip. Qed.

Lemma post_deref (p : Ptr) : post R (deref p).
Proof. destruct p; [apply post_ret|apply post_undefined]. Qed.

Lemma post_forget {A} (m : M A) : post R m → post R (forget m).
Proof. intros Hm. apply post_bind; [done|]. intros _. apply post_skip. Qed.

Lemma post_g_source_attach src :
  (∀ s, R s (set_next_source_id (Pos.succ (next_source_id s))
               (set_sources (<[next_source_id s := src]> (sources s)) s))
          [SourceAttach (next_source_id s) src]) →
  post R (g_source_attach src).
Proof. intros H s a s' log [= _ <- <-]. apply H. Qed.
End post.

Ltac post_step Hrefl Htrans :=
  lazymatch goal with
  | |- post ?R (mbind _ _) => apply (post_bind R Htrans); [|intros ?]
  | |- post ?R (mret _) => apply (post_ret R Hrefl)
  | |- post ?R skip => apply (post_skip R Hrefl)
  | |- post ?R get => apply (post_get R Hrefl)
  | |- post ?R undefined => apply post_undefined
  | |- post ?R (deref _) => apply (post_deref R Hrefl)
  | |- post ?R (when _ _) => apply (post_when R Hrefl)
  | |- post ?R (forget _) => apply (post_forget R Hrefl Htrans)
  | |- post ?R (modify _) => apply post_modify; intros ?
  | |- post ?R (emit _) => apply post_emit; intros ?
  | |- post ?R (match ?x with _ => _ end) => destruct x
  | |- post ?R (let _ := _ in _) => cbv zeta
  end.

(** * The respawn budget across the member functions *)

Lemma limit_kept_refl s : limit_kept s s [].
Proof. unfold limit_kept. lia. Qed.

Lemma limit_kept_trans s1 s2 s3 log1 log2 :
  limit_kept s1 s2 log1 → limit_kept s2 s3 log2 → limit_kept s1 s3 (log1 ++ log2).
Proof. unfold limit_kept. lia. Qed.

Create HintDb limit.

Ltac limit_auto :=
  repeat first
    [ solve [auto with limit]
    | post_step limit_kept_refl limit_kept_trans
    | progress unfold NotifyDeviceFound, NotifyDeviceLost, NotifyDeviceStateChanged, notify,
        SetState, SetName, SetAddress, GetAddress, update_peer, g_timeout_add,
        RequestAsync, EnqueueCommand, OnWriteMessage, subscript
    | (unfold limit_kept; simpl; lia) ].

Lemma limit_g_source_attach src : post limit_kept (g_source_attach src).
Proof. apply post_g_source_attach. intros s. unfold limit_kept. simpl. lia. Qed.

Lemma limit_g_source_remove tag : post limit_kept (g_source_remove tag).
Proof. unfold g_source_remove. limit_auto. Qed.

Lemma limit_NewNetworkDevice : post limit_kept NewNetworkDevice.
Proof. intros s a s' log [= _ <- <-]. unfold limit_kept. simpl. lia. Qed.

#[local] Hint Resolve limit_g_source_attach limit_g_source_remove limit_NewNetworkDevice : limit.

Lemma limit_update_known_peer entries address name :
  post limit_kept (update_known_peer entries address name).
Proof. induction entries as [|[key peer] rest IH]; simpl; limit_auto. Qed.

Lemma limit_lose_all entries : post limit_kept (lose_all entries).
Proof. induction entries as [|[key peer] rest IH]; simpl; limit_auto. Qed.

Lemma limit_set_wfd_sub_elements_from n elements :
  post limit_kept (set_wfd_sub_elements_from n elements).
Proof. revert n. induction elements as [|e rest IH]; intros n; simpl; limit_auto. Qed.

#[local] Hint Resolve limit_update_known_peer limit_lose_all
  limit_set_wfd_sub_elements_from : limit.

Lemma limit_Reset : post limit_kept Reset.
Proof. unfold Reset. limit_auto. Qed.

Lemma limit_StopSupplicant : post limit_kept StopSupplicant.
Proof. unfold StopSupplicant. limit_auto. Qed.

Lemma limit_DisconnectSupplicant : post limit_kept DisconnectSupplicant.
Proof. unfold DisconnectSupplicant. limit_auto. Qed.

#[local] Hint Resolve limit_Reset limit_StopSupplicant limit_DisconnectSupplicant : limit.

Lemma limit_StartSupplicant env : post limit_kept (StartSupplicant env).
Proof. unfold StartSupplicant, CreateSupplicantConfig. limit_auto. Qed.

#[local] Hint Resolve limit_StartSupplicant : limit.

(** * Loops *)

Lemma lose_all_total entries s :
  lose_all entries s =
    Done () s ((λ e, Delegate (OnDeviceLost e.2 (view s e.2))) <$> entries).
Proof.
  induction entries as [|[key peer] rest IH]; [done|].
  simpl. unfold_m. rewrite IH. done.
Qed.

Lemma attached_calls {A} (call : A → DelegateCall) (entries : list A) :
  attached ((λ e, Delegate (call e)) <$> entries) = [].
Proof. induction entries; [done|]. simpl. done. Qed.

(** No entry carries the address: the loop falls through, changing nothing. *)
Lemma update_known_peer_miss entries address name s :
  Forall (λ e, ∃ l, e.2 = Some l ∧ Address (peer_at s l) ≠ address) entries →
  update_known_peer entries address name s = Done false s [].
Proof.
  induction 1 as [|[key peer] rest (l & Hp & Hne) _ IH]; [done|].
  simpl in Hp. subst peer.
  simpl. unfold_m. simpl. rewrite bool_decide_eq_true_2 by done. by rewrite IH.
Qed.

(** Every entry is a peer, and [l] is the only one with the address: the
    loop renames [l] and returns from inside. *)
Lemma update_known_peer_hit entries address name s l :
  Forall (λ e, ∃ l', e.2 = Some l' ∧ (Address (peer_at s l') = address → l' = l)) entries →
  Exists (λ e, e.2 = Some l) entries →
  Address (peer_at s l) = address →
  update_known_peer entries address name s =
    Done true
      (set_heap (<[l := with_Name name (with_Address address (peer_at s l))]> (heap s)) s) [].
Proof.
  intros Hall Hex Hl. induction Hall as [|[key peer] rest (l' & Hp & Hsame) _ IH].
  { by apply Exists_nil in Hex. }
  simpl in Hp. subst peer. simpl. unfold_m. simpl.
  destruct (decide (Address (peer_at s l') = address)) as [Heq|Hne].
  - rewrite bool_decide_eq_false_2 by (intros ?; done).
    rewrite (Hsame Heq). destruct s; crush. by rewrite insert_insert_eq.
  - rewrite bool_decide_eq_true_2 by done.
    apply Exists_cons in Hex as [Hhead|Htail].
    + simpl in Hhead. injection Hhead as ->. done.
    + rewrite (IH Htail). done.
Qed.

(** * The supervisor runs to completion *)

Lemma StopSupplicant_runs s :
  ∃ s' log, StopSupplicant s = Done () s' log ∧
    respawn_limit_ s' = respawn_limit_ s ∧ respawn_source_ s' = respawn_source_ s ∧
    attached log = [].
Proof.
  unfold StopSupplicant. unfold_m.
  destruct (supplicant_pid_ s <? 0)%Z; simpl; do 2 eexists; (split; [reflexivity|]); done.
Qed.

Lemma DisconnectSupplicant_runs s :
  ∃ s' log, DisconnectSupplicant s = Done () s' log ∧
    respawn_limit_ s' = respawn_limit_ s ∧ respawn_source_ s' = respawn_source_ s ∧
    attached log = [].
Proof.
  unfold DisconnectSupplicant. unfold_m.
  destruct s as [? ? ? ? ? ? ? ? ? ? sk [] [|w] ? ? ? ?]; simpl;
    destruct (sk <? 0)%Z; destruct (0 <? sk)%Z; simpl;
    do 2 eexists; (split; [reflexivity|]); done.
Qed.

Lemma Reset_runs s :
  ∃ s' log, Reset s = Done () s' log ∧
    current_peer_ s' = None ∧ available_devices_ s' = ∅ ∧ is_group_owner_ s' = false ∧
    respawn_limit_ s' = respawn_limit_ s ∧ respawn_source_ s' = respawn_source_ s ∧
    attached log = [].
Proof.
  unfold Reset. unfold_m.
  destruct s as [[] ? ? tbl [l|] [|dt] ? ? ? ? ? ? ? ? ? ? ?]; crush;
    rewrite ?lose_all_total; crush;
    do 2 eexists; (split; [reflexivity|]); repeat split; try done;
    rewrite ?app_nil_r; simpl; apply attached_calls.
Qed.

Lemma bind_get {A} (f : Manager → M A) s : (get ≫= f) s = f s s.
Proof. unfold mbind, M_bind, get. by destruct (f s s). Qed.

Lemma bind_skip {A} (f : unit → M A) s : (skip ≫= f) s = f () s.
Proof. unfold mbind, M_bind, skip, mret, M_ret. by destruct (f () s). Qed.

Lemma bind_Done {A B} (m : M A) (f : A → M B) s a s1 log1 :
  m s = Done a s1 log1 →
  (m ≫= f) s =
    match f a s1 with
    | Done b s2 log2 => Done b s2 (log1 ++ log2)
    | Undefined => Undefined
    end.
Proof. intros Hm. unfold mbind, M_bind. by rewrite Hm. Qed.

(** What follows the scheduling in [HandleSupplicantFailed]. *)
Lemma teardown_runs s :
  ∃ s' log,
    (DisconnectSupplicant;; StopSupplicant;; Reset) s = Done () s' log ∧
    respawn_limit_ s' = respawn_limit_ s ∧ respawn_source_ s' = respawn_source_ s ∧
    attached log = [].
Proof.
  destruct (DisconnectSupplicant_runs s) as (s2 & log2 & Hrun2 & Hl2 & Hs2 & Ha2).
  destruct (StopSupplicant_runs s2) as (s3 & log3 & Hrun3 & Hl3 & Hs3 & Ha3).
  destruct (Reset_runs s3) as (s4 & log4 & Hrun4 & _ & _ & _ & Hl4 & Hs4 & Ha4).
  exists s4, (log2 ++ log3 ++ log4).
  rewrite (bind_Done _ _ _ _ _ _ Hrun2), (bind_Done _ _ _ _ _ _ Hrun3), Hrun4.
  rewrite !attached_app, Ha2, Ha3, Ha4. repeat split; congruence.
Qed.

Lemma HandleSupplicantFailed_runs s :
  ∃ s' log, HandleSupplicantFailed s = Done () s' log ∧
    if (0 <? respawn_limit_ s)%N then
      respawn_limit_ s' = uint_dec (respawn_limit_ s) ∧
      respawn_source_ s' = Npos (next_source_id s) ∧
      attached log = [(next_source_id s, respawn_source)]
    else
      respawn_limit_ s' = respawn_limit_ s ∧
      respawn_source_ s' = respawn_source_ s ∧
      attached log = [].
Proof.
  unfold HandleSupplicantFailed. rewrite bind_get.
  destruct (0 <? respawn_limit_ s)%N eqn:Hpos; unfold when.
  - match goal with |- context [mbind _ ?m s] =>
      assert (Hhead : ∃ s1 log1, m s = Done () s1 log1 ∧
                respawn_limit_ s1 = uint_dec (respawn_limit_ s) ∧
                respawn_source_ s1 = Npos (next_source_id s) ∧
                attached log1 = [(next_source_id s, respawn_source)])
    end.
    { unfold_m. destruct s as [? ? ? ? ? ? ? [|src] ? ? ? ? ? ? ? ? ?]; simpl;
        do 2 eexists; (split; [reflexivity|]); done. }
    destruct Hhead as (s1 & log1 & Hrun1 & Hl1 & Hs1 & Ha1).
    destruct (teardown_runs s1) as (s' & log & Hrun & Hl & Hs & Ha).
    rewrite (bind_Done _ _ _ _ _ _ Hrun1), Hrun.
    do 2 eexists. split; [reflexivity|].
    rewrite attached_app, Ha1, Ha. repeat split; congruence.
  - destruct (teardown_runs s) as (s' & log & Hrun & Hl & Hs & Ha).
    rewrite bind_skip, Hrun.
    do 2 eexists. split; [reflexivity|]. done.
Qed.

Lemma limit_HandleSupplicantFailed : post limit_kept HandleSupplicantFailed.
Proof.
  intros s a s' log Hrun.
  destruct (HandleSupplicantFailed_runs s) as (s1 & log1 & Hrun1 & H).
  rewrite Hrun in Hrun1. injection Hrun1 as _ <- <-. unfold limit_kept.
  destruct (0 <? respawn_limit_ s)%N eqn:Hpos.
  - destruct H as (-> & _). apply uint_dec_le. by apply N.ltb_lt.
  - destruct H as (-> & _). lia.
Qed.

Lemma limit_OnSupplicantRespawn env : post limit_kept (OnSupplicantRespawn env).
Proof.
  intros s a s' log. unfold OnSupplicantRespawn, mbind, M_bind.
  destruct (StartSupplicant env s) as [started s1 log1|] eqn:Hstart; [|done].
  apply limit_StartSupplicant in Hstart. unfold limit_kept in *. unfold get.
  destruct (negb started && (0 <? respawn_limit_ s1)%N) eqn:Hc; simpl.
  - intros [= _ <- _]. simpl.
    apply andb_true_iff in Hc as [_ Hpos%N.ltb_lt].
    pose proof (uint_dec_le _ Hpos). lia.
  - intros [= _ <- _]. done.
Qed.



#[local] Hint Resolve limit_HandleSupplicantFailed limit_OnSupplicantRespawn : limit.


(** * Connect, case by case *)

Lemma Connect_cases (s : Manager) (l : positive) :
  match available_devices_ s !! Address (peer_at s l), current_peer_ s with
  | Some peer, None =>
      Connect (Some l) s =
        Done false
          (set_command_queue_
             (command_queue_ s ++ [(connect_request (Address (peer_at s l)), kConnectReply)])
             (set_current_peer_ peer s))
          (written_now s (connect_request (Address (peer_at s l))))
  | _, _ => Connect (Some l) s = Done false s []
  end.
Proof.
  unfold Connect, Connect_on, RequestAsync_on, command_queue, written_now, connect_request.
  unfold_m.
  destruct s as [? ? ? tbl cur ? ? ? ? ? ? ? ? q h ? ?]; crush.
  destruct (tbl !! Address (h !!! l)) as [peer|] eqn:Hl; destruct cur; crush;
    rewrite ?Hl; crush; try done.
  by destruct (bool_decide (q = [])).
Qed.

(** With a null [device] the first thing [Connect] does is dereference it. *)
Lemma Connect_null s : Connect None s = Undefined.
Proof. reflexivity. Qed.

(** * The peer table stays sound

    The hypothesis of the statement about known peers is an invariant of the
    manager: it holds of the initial state and every entry point keeps it,
    bar a [P2P-DEVICE-LOST] for an address that is not in the table. *)

Lemma table_sound_well_formed s : table_sound s → table_well_formed s.
Proof.
  intros Hs key peer Hkey. destruct (Hs _ _ Hkey) as (l & d & -> & Hl & Hd).
  exists l. split; [done|]. unfold peer_at. by rewrite (lookup_total_correct _ _ _ Hl).
Qed.

Lemma table_sound_initial delegate pid sock : table_sound (initial delegate pid sock).
Proof. intros key peer Hkey. simpl in Hkey. by rewrite lookup_empty in Hkey. Qed.

Lemma sound_kept_refl s : sound_kept s s [].
Proof. by intros H. Qed.

Lemma sound_kept_trans s1 s2 s3 log1 log2 :
  sound_kept s1 s2 log1 → sound_kept s2 s3 log2 → sound_kept s1 s3 (log1 ++ log2).
Proof. unfold sound_kept. auto. Qed.

(** Same table, same store: same verdict. *)
Lemma table_sound_same s s' :
  available_devices_ s' = available_devices_ s → heap s' = heap s →
  table_sound s → table_sound s'.
Proof. unfold table_sound. intros -> ->. done. Qed.

(** Overwriting a peer by one with the same address. *)
Lemma table_sound_update s l d :
  Address d = Address (peer_at s l) →
  table_sound s → table_sound (set_heap (<[l := d]> (heap s)) s).
Proof.
  intros Hd Hs key peer Hkey. destruct s; simpl in *.
  destruct (Hs _ _ Hkey) as (l' & d' & -> & Hl' & Hd').
  exists l'. destruct (decide (l = l')) as [->|Hne].
  - exists d. rewrite lookup_insert_eq. split; [done|]. split; [done|].
    unfold peer_at in Hd. simpl in Hd. rewrite (lookup_total_correct _ _ _ Hl') in Hd. congruence.
  - exists d'. by rewrite lookup_insert_ne.
Qed.

Lemma table_sound_clear s : table_sound (set_available_devices_ ∅ s).
Proof. intros key peer Hkey. simpl in Hkey. by rewrite lookup_empty in Hkey. Qed.

Create HintDb sound.

Ltac sound_auto :=
  repeat first
    [ solve [auto with sound]
    | post_step sound_kept_refl sound_kept_trans
    | progress unfold NotifyDeviceFound, NotifyDeviceLost, NotifyDeviceStateChanged, notify,
        SetState, SetName, GetAddress, update_peer, g_timeout_add,
        RequestAsync, EnqueueCommand, OnWriteMessage
    | solve [ unfold sound_kept; done ]
    | solve [ unfold sound_kept; intros _; apply table_sound_clear ]
    | solve [ unfold sound_kept; apply table_sound_same; reflexivity ]
    | solve [ unfold sound_kept; apply table_sound_update; reflexivity ] ].

Lemma sound_g_source_attach src : post sound_kept (g_source_attach src).
Proof.
  apply post_g_source_attach. intros s. unfold sound_kept.
  apply table_sound_same; reflexivity.
Qed.

Lemma sound_g_source_remove tag : post sound_kept (g_source_remove tag).
Proof. unfold g_source_remove. sound_auto. Qed.

#[local] Hint Resolve sound_g_source_attach sound_g_source_remove : sound.

Lemma sound_lose_all entries : post sound_kept (lose_all entries).
Proof. induction entries as [|[key peer] rest IH]; simpl; sound_auto. Qed.

Lemma sound_set_wfd_sub_elements_from n elements :
  post sound_kept (set_wfd_sub_elements_from n elements).
Proof. revert n. induction elements as [|e rest IH]; intros n; simpl; sound_auto. Qed.

#[local] Hint Resolve sound_lose_all sound_set_wfd_sub_elements_from : sound.

Lemma sound_Reset : post sound_kept Reset.
Proof. unfold Reset. sound_auto. Qed.

Lemma sound_StopSupplicant : post sound_kept StopSupplicant.
Proof. unfold StopSupplicant. sound_auto. Qed.

Lemma sound_DisconnectSupplicant : post sound_kept DisconnectSupplicant.
Proof. unfold DisconnectSupplicant. sound_auto. Qed.

#[local] Hint Resolve sound_Reset sound_StopSupplicant sound_DisconnectSupplicant : sound.

Lemma sound_StartSupplicant env : post sound_kept (StartSupplicant env).
Proof. unfold StartSupplicant, CreateSupplicantConfig. sound_auto. Qed.

Lemma sound_ConnectSupplicant env : post sound_kept (ConnectSupplicant env).
Proof. unfold ConnectSupplicant, SetWfdSubElements. sound_auto. Qed.

#[local] Hint Resolve sound_StartSupplicant sound_ConnectSupplicant : sound.

Lemma sound_HandleSupplicantFailed : post sound_kept HandleSupplicantFailed.
Proof. unfold HandleSupplicantFailed. sound_auto. Qed.

Lemma sound_OnSupplicantRespawn env : post sound_kept (OnSupplicantRespawn env).
Proof. unfold OnSupplicantRespawn. sound_auto. Qed.

#[local] Hint Resolve sound_HandleSupplicantFailed sound_OnSupplicantRespawn : sound.

(** What the loop of [OnP2pDeviceFound] can have done when it is over. *)
Lemma update_known_peer_result entries address name s r s' log :
  update_known_peer entries address name s = Done r s' log →
  log = [] ∧
  ((r = false ∧ s' = s) ∨
   (r = true ∧ ∃ l, Address (peer_at s l) = address ∧
      s' = set_heap (<[l := with_Name name (with_Address address (peer_at s l))]> (heap s)) s)).
Proof.
  induction entries as [|[key [l|]] rest IH]; cbn [update_known_peer].
  - intros [= <- <- <-]. auto.
  - unfold GetAddress, deref.
    rewrite (bind_Done _ _ s (Address (peer_at s l)) s []) by done.
    destruct (decide (Address (peer_at s l) = address)) as [Heq|Hne].
    + rewrite bool_decide_eq_false_2 by (intros ?; done).
      unfold_m. destruct s; simpl in *. intros [= <- <- <-].
      split; [done|]. right. split; [done|]. exists l. split; [done|].
      unfold peer_at. simpl. rewrite lookup_total_insert_eq. by rewrite insert_insert_eq.
    + rewrite bool_decide_eq_true_2 by done.
      destruct (update_known_peer rest address name s) as [r1 s1 log1|] eqn:Hrest; [|done].
      intros [= <- <- <-]. by apply IH.
  - done.
Qed.

Lemma sound_OnP2pDeviceFound address name config_methods_str :
  post sound_kept (OnP2pDeviceFound address name config_methods_str).
Proof.
  intros s a s' log. unfold OnP2pDeviceFound. rewrite bind_get.
  unfold mbind at 1. unfold M_bind at 1.
  destruct (update_known_peer _ address name s) as [r s1 log1|] eqn:Hloop; [|done].
  destruct (update_known_peer_result _ _ _ _ _ _ _ Hloop) as [Hlog Hcases].
  subst log1. destruct Hcases as [[Hr Hs1]|[Hr [l [Hl Hs1]]]]; subst r s1.
  - unfold_m. unfold NewNetworkDevice.
    destruct s as [dg ? ? tbl ? ? ? ? ? ? ? ? ? ? h ? ?]; simpl.
    set (l := fresh (dom h)).
    assert (Hfresh : h !! l = None) by (apply not_elem_of_dom, is_fresh).
    clearbody l.
    assert (Hresult : ∀ s2, table_sound s2 →
              available_devices_ s2 = tbl → heap s2 = h →
              table_sound
                (set_available_devices_ (<[address := Some l]> tbl)
                   (set_heap (<[l := with_Name name (with_Address address new_NetworkDevice)]> h)
                      s2))).
    { intros s2 Hs2 Htbl Hh key peer Hkey. destruct s2; simpl in *. subst.
      destruct (decide (key = address)) as [->|Hne].
      - rewrite lookup_insert_eq in Hkey. injection Hkey as <-.
        eexists l, _. rewrite lookup_insert_eq. done.
      - rewrite lookup_insert_ne in Hkey by done.
        destruct (Hs2 _ _ Hkey) as (l' & d' & -> & Hl' & Hd').
        simpl in *. exists l', d'. rewrite lookup_insert_ne by (intros ->; congruence). done. }
    unfold peer_at; simpl. rewrite !lookup_total_insert_eq, !insert_insert_eq.
    destruct dg; simpl; intros [= _ <- _] Hs; by apply (Hresult _ Hs).
  - unfold skip, mret, M_ret. intros [= _ <- _]. unfold sound_kept.
    apply table_sound_update. simpl. done.
Qed.

Lemma sound_Connect device : post sound_kept (Connect device).
Proof.
  intros s a s' log. destruct device as [l|]; [|done].
  pose proof (Connect_cases s l) as H.
  unfold sound_kept.
  destruct (available_devices_ s !! _), (current_peer_ s); rewrite H;
    intros [= _ <- _]; done.
Qed.

(** A lost event for a known address changes nothing in the state. *)
Lemma OnP2pDeviceLost_known address s s' log :
  address ∈ dom (available_devices_ s) →
  OnP2pDeviceLost address s = Done () s' log → s' = s.
Proof.
  intros [peer Hpeer]%elem_of_dom. unfold OnP2pDeviceLost. unfold_m. rewrite Hpeer.
  destruct peer; simpl; [destruct (delegate_ s)|]; by intros [= <- _].
Qed.

#[local] Hint Resolve sound_OnP2pDeviceFound sound_Connect : sound.

Lemma sound_run env op :
  (∀ address, op ≠ OpP2pDeviceLost address) → post sound_kept (run env op).
Proof.
  destruct op; intros Hop; simpl;
    try (exfalso; by eapply Hop);
    unfold Setup, OnFirmwareLoaded, OnFirmwareUnloaded,
      OnP2pGroupStarted, OnP2pGroupRemoved, HandleReply, OnIncomingHangup, OnSupplicantWatch,
      OnConnectSupplicant,
      OnAddressAssigned, OnDeviceFailureTimeout, OnGroupClientDhcpTimeout, Scan,
      DisconnectAll, DisconnectAll_on, RequestAsync_on, command_queue;
    sound_auto.
Qed.

(** X1: every entry point of the manager but one keeps the peer table
    sound: whatever runs to completion on a sound table leaves a sound
    table, except an [OnP2pDeviceLost] for an address that is not a key of
    the table. *)
Theorem table_sound_invariant env op s s' log :
  (∀ address, op = OpP2pDeviceLost address → address ∈ dom (available_devices_ s)) →
  run env op s = Done () s' log →
  table_sound s → table_sound s'.
Proof.
  intros Hlost Hrun.
  assert (Hcase : (∃ address, op = OpP2pDeviceLost address) ∨
                  (∀ address, op ≠ OpP2pDeviceLost address)).
  { destruct op; try (right; intros ?; discriminate). left. eauto. }
  destruct Hcase as [[address ->]|Hother].
  - simpl in Hrun. rewrite (OnP2pDeviceLost_known _ _ _ _ (Hlost _ eq_refl) Hrun). done.
  - by apply (sound_run env op Hother s () s' log).
Qed.

(** * The claims *)

(** C1 (the code departs from the claim): [OnP2pGroupRemoved] has its guard
    inverted.  When a current peer exists the handler returns at once: the
    state is unchanged and nothing is called, so the peer is neither failed
    nor disconnected, the delegate hears nothing, the current peer stays,
    the DHCP pair keeps running.  When no current peer exists it goes on to
    dereference the null pointer. *)
Theorem OnP2pGroupRemoved_guard_inverted (reason : string) (s : Manager) :
  match current_peer_ s with
  | Some _ => OnP2pGroupRemoved reason s = Done () s []
  | None => OnP2pGroupRemoved reason s = Undefined
  end.
Proof.
  unfold OnP2pGroupRemoved. unfold_m.
  destruct (current_peer_ s) eqn:Hcur; rewrite ?Hcur; reflexivity.
Qed.

(** Scenario S5 on the code: the formation failure is ignored. *)
Example formation_failure_ignored :
  OnP2pGroupRemoved "FORMATION_FAILED" s_connecting = Done () s_connecting [].
Proof. reflexivity. Qed.

(** C2 (the code departs from the claim): [OnP2pDeviceLost] never removes.
    For a known address the delegate is told and the state, the table entry
    included, is unchanged; for an unknown address the subscript operator
    files a null pointer under it, so the table grows by a key. *)
Theorem OnP2pDeviceLost_keeps_entry (address : string) (s : Manager) :
  match available_devices_ s !! address with
  | Some (Some l) =>
      OnP2pDeviceLost address s =
        Done () s (delegate_calls s [OnDeviceLost (Some l) (Some (peer_at s l))])
  | Some None => OnP2pDeviceLost address s = Done () s []
  | None =>
      OnP2pDeviceLost address s =
        Done () (set_available_devices_ (<[address := None]> (available_devices_ s)) s) []
  end.
Proof.
  unfold OnP2pDeviceLost, delegate_calls. unfold_m.
  destruct (available_devices_ s !! address) as [[l|]|] eqn:Hl; rewrite ?Hl; simpl;
    try reflexivity.
  destruct (delegate_ s); reflexivity.
Qed.

(** Scenario S1 on the code: after the peer is lost the table still holds it. *)
Example lost_peer_stays :
  OnP2pDeviceLost aquaris s_discovered =
    Done () s_discovered
      [Delegate (OnDeviceLost (Some 1%positive) (Some (aquaris_peer kIdle)))]
  ∧ available_devices_ s_discovered !! aquaris = Some (Some 1%positive).
Proof. split; vm_compute; reflexivity. Qed.

(** A lost event for an address never found, then the discovery of that
    address: the loop of [OnP2pDeviceFound] meets the null entry. *)
Example found_after_unknown_lost :
  (OnP2pDeviceLost aquaris;; OnP2pDeviceFound aquaris "Aquaris M10" "0x188")
    (initial true 0 0) = Undefined.
Proof. vm_compute. reflexivity. Qed.

(** C3 (the code departs from the claim): when the DHCP-acquisition timeout
    fires with a current peer, the peer is set to failure, the delegate is
    notified and the 5 s cooldown is attached, as claimed.  When the
    cooldown then fires, the peer is set to idle but the log is empty: the
    delegate is not notified of that change. *)
Theorem dhcp_timeout_then_cooldown (s : Manager) (l : positive) :
  current_peer_ s = Some l →
  ∃ s1 s2,
    OnGroupClientDhcpTimeout s =
      Done false s1
        (SourceAttach (next_source_id s) peer_failure_source
         :: delegate_calls s [OnDeviceStateChanged (Some l)
                                (Some (with_State kFailure (peer_at s l)))])
    ∧ peer_at s1 l = with_State kFailure (peer_at s l)
    ∧ sources s1 !! next_source_id s = Some peer_failure_source
    ∧ current_peer_ s1 = Some l
    ∧ OnDeviceFailureTimeout s1 = Done false s2 []
    ∧ peer_at s2 l = with_State kIdle (peer_at s l)
    ∧ current_peer_ s2 = Some l.
Proof.
  intros Hcur.
  unfold OnGroupClientDhcpTimeout, OnDeviceFailureTimeout, delegate_calls. unfold_m.
  rewrite Hcur.
  destruct s as [[] ? ? ? ? ? ? ? ? ? ? ? ? ? ? ? ?]; crush; subst; crush;
    do 2 eexists; (split; [reflexivity|]); crush; repeat split; crush;
    rewrite ?lookup_insert_eq; done.
Qed.

Lemma dhcp_timeout_then_cooldown_witness :
  current_peer_ s_connecting = Some 1%positive ∧
  ∃ s1 s2,
    OnGroupClientDhcpTimeout s_connecting =
      Done false s1
        [SourceAttach 1 peer_failure_source;
         Delegate (OnDeviceStateChanged (Some 1%positive) (Some (aquaris_peer kFailure)))]
    ∧ OnDeviceFailureTimeout s1 = Done false s2 []
    ∧ peer_at s2 1%positive = aquaris_peer kIdle.
Proof.
  split; [reflexivity|].
  destruct (dhcp_timeout_then_cooldown s_connecting 1%positive eq_refl)
    as (s1 & s2 & Hfire & _ & _ & _ & Hcool & Hidle & _).
  exists s1, s2. split; [exact Hfire|]. split; [exact Hcool|exact Hidle].
Defined.

(** Without a current peer the cooldown callback dereferences null. *)
Lemma OnDeviceFailureTimeout_null s :
  current_peer_ s = None → OnDeviceFailureTimeout s = Undefined.
Proof. intros Hcur. unfold OnDeviceFailureTimeout. unfold_m. by rewrite Hcur. Qed.

(** Scenario S4 through the event loop: both sources fire, one notification. *)
Example dhcp_timeout_scenario :
  ∃ s',
    (OnP2pGroupStarted "client";; dispatch_timeout default_env 1;;
     dispatch_timeout default_env 2) s_connecting =
      Done () s'
        [Delegate (OnDeviceStateChanged (Some 1%positive) (Some (aquaris_peer kConfiguration)));
         DhcpClientStart;
         SourceAttach 1 dhcp_timeout_source;
         SourceAttach 2 peer_failure_source;
         Delegate (OnDeviceStateChanged (Some 1%positive) (Some (aquaris_peer kFailure)));
         SourceRemove 1;
         SourceRemove 2]
    ∧ peer_at s' 1%positive = aquaris_peer kIdle.
Proof. eexists. split; vm_compute; reflexivity. Qed.

(** C4: a [P2P-GROUP-STARTED] event with a current peer first sets the peer
    to configuration and notifies the delegate.  If the role token is
    exactly [GO], the role flag becomes true, the peer is set to connected,
    the DHCP server is started, the delegate is notified again, and no
    source is attached: the DHCP timeout and the main context are as before.
    For any other token the role flag becomes false, the DHCP client is
    started, the 5000 ms DHCP-acquisition timeout is attached and remembered,
    and the peer stays in configuration. *)
Theorem OnP2pGroupStarted_spec (role : string) (s : Manager) (l : positive) :
  current_peer_ s = Some l →
  let configuring :=
    delegate_calls s [OnDeviceStateChanged (Some l)
                        (Some (with_State kConfiguration (peer_at s l)))] in
  ∃ s',
    current_peer_ s' = Some l ∧
    (role = "GO" →
       OnP2pGroupStarted role s =
         Done () s'
           (configuring ++ [DhcpServerStart] ++
            delegate_calls s [OnDeviceStateChanged (Some l)
                                (Some (with_State kConnected (peer_at s l)))])
       ∧ is_group_owner_ s' = true
       ∧ peer_at s' l = with_State kConnected (peer_at s l)
       ∧ dhcp_timeout_ s' = dhcp_timeout_ s
       ∧ sources s' = sources s) ∧
    (role ≠ "GO" →
       OnP2pGroupStarted role s =
         Done () s'
           (configuring ++
            [DhcpClientStart; SourceAttach (next_source_id s) dhcp_timeout_source])
       ∧ is_group_owner_ s' = false
       ∧ peer_at s' l = with_State kConfiguration (peer_at s l)
       ∧ dhcp_timeout_ s' = Npos (next_source_id s)
       ∧ sources s' !! next_source_id s = Some dhcp_timeout_source).
Proof.
  intros Hcur configuring. subst configuring.
  unfold OnP2pGroupStarted, delegate_calls. unfold_m. rewrite Hcur.
  destruct (decide (role = "GO")) as [Hgo|Hgo].
  - rewrite (bool_decide_eq_true_2 _ Hgo).
    destruct s as [[] ? ? ? ? ? ? ? ? ? ? ? ? ? ? ? ?]; crush;
      eexists; (split; [|split; [intros _; split; [reflexivity|]|intros; done]]);
      crush; done.
  - rewrite (bool_decide_eq_false_2 _ Hgo).
    destruct s as [[] ? ? ? ? ? ? ? ? ? ? ? ? ? ? ? ?]; crush;
      eexists; (split; [|split; [intros; done|intros _; split; [reflexivity|]]]);
      crush; rewrite ?lookup_insert_eq; done.
Qed.

Lemma OnP2pGroupStarted_spec_witness :
  current_peer_ s_connecting = Some 1%positive ∧
  (∃ s', OnP2pGroupStarted "GO" s_connecting =
           Done () s'
             [Delegate (OnDeviceStateChanged (Some 1%positive)
                          (Some (aquaris_peer kConfiguration)));
              DhcpServerStart;
              Delegate (OnDeviceStateChanged (Some 1%positive)
                          (Some (aquaris_peer kConnected)))]
         ∧ is_group_owner_ s' = true ∧ dhcp_timeout_ s' = 0%N) ∧
  (∃ s', OnP2pGroupStarted "client" s_connecting =
           Done () s'
             [Delegate (OnDeviceStateChanged (Some 1%positive)
                          (Some (aquaris_peer kConfiguration)));
              DhcpClientStart;
              SourceAttach 1 dhcp_timeout_source]
         ∧ is_group_owner_ s' = false ∧ dhcp_timeout_ s' = 1%N).
Proof.
  split; [reflexivity|]. split.
  - destruct (OnP2pGroupStarted_spec "GO" s_connecting 1%positive eq_refl)
      as (s' & _ & Hgo & _).
    destruct (Hgo eq_refl) as (Hrun & Hflag & _ & Htimeout & _).
    exists s'. split; [exact Hrun|]. split; [exact Hflag|exact Htimeout].
  - destruct (OnP2pGroupStarted_spec "client" s_connecting 1%positive eq_refl)
      as (s' & _ & _ & Hclient).
    destruct Hclient as (Hrun & Hflag & _ & Htimeout & _); [discriminate|].
    exists s'. split; [exact Hrun|]. split; [exact Hflag|exact Htimeout].
Defined.

(** The role token is compared as it stands: lower-case [go] is a client. *)
Example lower_case_go_is_client :
  ∃ s', OnP2pGroupStarted "go" s_connecting =
          Done () s'
            [Delegate (OnDeviceStateChanged (Some 1%positive)
                         (Some (aquaris_peer kConfiguration)));
             DhcpClientStart;
             SourceAttach 1 dhcp_timeout_source]
        ∧ is_group_owner_ s' = false.
Proof. eexists. split; vm_compute; reflexivity. Qed.


(** Scenario S6 on the code: a crash with a peer present. *)
Example supplicant_crash_scenario :
  ∃ s',
    OnSupplicantWatch 4242 1 s_discovered =
      Done () s'
        [SourceAttach 1 respawn_source; SpawnClosePid 0;
         Delegate (OnDeviceLost (Some 1%positive) (Some (aquaris_peer kIdle)))]
    ∧ respawn_limit_ s' = 9%N
    ∧ available_devices_ s' = ∅.
Proof. eexists. split; [|split]; vm_compute; reflexivity. Qed.

(** C6: [Connect] on a device fails, returning false with the whole state
    (current peer, peer table and request queue included) unchanged and
    nothing written, when the device's address is not a key of the peer
    table or when a current peer exists.  Otherwise it sets the current peer
    to the table entry at that address and appends the request
    [P2P_CONNECT <address> pbc] to the queue. *)
Theorem Connect_spec (s : Manager) (l : positive) :
  let address := Address (peer_at s l) in
  match available_devices_ s !! address, current_peer_ s with
  | Some peer, None =>
      Connect (Some l) s =
        Done false
          (set_command_queue_ (command_queue_ s ++ [(connect_request address, kConnectReply)])
             (set_current_peer_ peer s))
          (written_now s (connect_request address))
      ∧ get_raw (connect_request address) = "P2P_CONNECT " +:+ address +:+ " pbc"
  | _, _ => Connect (Some l) s = Done false s []
  end.
Proof.
  intros address. subst address. pose proof (Connect_cases s l) as H.
  destruct (available_devices_ s !! Address (peer_at s l)) as [peer|];
    destruct (current_peer_ s); try exact H.
  split; [exact H|reflexivity].
Qed.

(** Scenario S2 on the code: the request as written to the socket. *)
Example connect_scenario :
  Connect (Some 1%positive) s_discovered =
    Done false s_connecting [Send 0 "P2P_CONNECT 4e:74:03:70:e2:c1 pbc"]
  ∧ Connect (Some 1%positive) s_connecting = Done false s_connecting [].
Proof. split; vm_compute; reflexivity. Qed.

(** [ret] starts as false and a handler run only ever sets it: after the
    replies the handler ran on, it is true when one of them was no failure. *)
Lemma foldl_ret_after_reply callback replies : ∀ ret,
  (∀ is_fail, reply_assigns_ret callback is_fail = negb is_fail) →
  foldl (ret_after_reply callback) ret replies = ret || existsb negb replies.
Proof.
  induction replies as [|is_fail rest IH]; intros ret Hcallback; simpl.
  - by rewrite orb_false_r.
  - rewrite IH by done. unfold ret_after_reply. rewrite Hcallback.
    destruct ret, is_fail; reflexivity.
Qed.

Lemma RequestAsync_on_result queue message callback s :
  (∀ is_fail, reply_assigns_ret callback is_fail = negb is_fail) →
  (ret ← RequestAsync_on queue message callback false; mret ret) s =
    match queue message callback s with
    | Done replies s' log => Done (existsb negb replies) s' log
    | Undefined => Undefined
    end.
Proof.
  intros Hcallback. unfold RequestAsync_on, mbind, M_bind, mret, M_ret.
  destruct (queue message callback s) as [replies s' log|]; [|done].
  rewrite (foldl_ret_after_reply _ _ _ Hcallback), !app_nil_r. reflexivity.
Qed.

Lemma Connect_on_cases (queue : CommandQueue) (s : Manager) (l : positive) :
  match available_devices_ s !! Address (peer_at s l), current_peer_ s with
  | Some peer, None =>
      Connect_on queue (Some l) s =
        match queue (connect_request (Address (peer_at s l))) kConnectReply
                (set_current_peer_ peer s) with
        | Done replies s' log => Done (existsb negb replies) s' log
        | Undefined => Undefined
        end
  | _, _ => Connect_on queue (Some l) s = Done false s []
  end.
Proof.
  unfold Connect_on, GetAddress, deref. cbv zeta.
  assert (Hread : (mret l ≫= λ l0, s0 ← get; mret (Address (peer_at s0 l0))) s
                  = Done (Address (peer_at s l)) s []) by reflexivity.
  rewrite (bind_Done _ _ _ _ _ _ Hread), bind_get. simpl.
  destruct (available_devices_ s !! Address (peer_at s l)) as [peer|] eqn:Hl.
  - rewrite bool_decide_false by done.
    destruct (current_peer_ s) eqn:Hcur; [reflexivity|].
    assert (Hsub : subscript (Address (peer_at s l)) s = Done peer s []).
    { unfold subscript. rewrite bind_get, Hl. reflexivity. }
    rewrite (bind_Done _ _ _ _ _ _ Hsub). simpl.
    assert (Hset : modify (set_current_peer_ peer) s = Done () (set_current_peer_ peer s) [])
      by reflexivity.
    rewrite (bind_Done _ _ _ _ _ _ Hset). simpl.
    rewrite RequestAsync_on_result by done.
    unfold connect_request.
    by destruct (queue _ kConnectReply (set_current_peer_ peer s)).
  - rewrite bool_decide_true by done. by destruct (current_peer_ s).
Qed.

Lemma DisconnectAll_on_result (queue : CommandQueue) (s : Manager) :
  DisconnectAll_on queue s =
    match queue (CreateRequest "P2P_GROUP_REMOVE" << interface_name_ s)
            kDisconnectAllReply s with
    | Done replies s' log => Done (existsb negb replies) s' log
    | Undefined => Undefined
    end.
Proof.
  unfold DisconnectAll_on. rewrite bind_get. cbv zeta.
  by rewrite RequestAsync_on_result.
Qed.

Lemma command_queue_result message callback s :
  command_queue message callback s =
    Done [] (set_command_queue_ (command_queue_ s ++ [(message, callback)]) s)
      (written_now s message).
Proof.
  unfold command_queue, EnqueueCommand, written_now. unfold_m.
  destruct s as [? ? ? ? ? ? ? ? ? ? ? ? ? q ? ? ?]; simpl.
  destruct q; reflexivity.
Qed.

(** C7: the boolean that [Connect] and [DisconnectAll] return is the local
    [ret], which starts as false and is assigned only by the reply handler:
    over any queue, a call whose preconditions hold returns true exactly
    when the queue ran the handler, before [EnqueueCommand] returned, on a
    reply that is no failure.  The manager's queue runs no handler inside
    [EnqueueCommand]: the handler sits in the last entry of the queue, with
    its request, when the call returns.  So [Connect] and [DisconnectAll]
    return false whenever they return, the calls whose preconditions hold
    included. *)
Theorem Connect_DisconnectAll_return_false :
  (∀ (queue : CommandQueue) s l peer,
     available_devices_ s !! Address (peer_at s l) = Some peer →
     current_peer_ s = None →
     Connect_on queue (Some l) s =
       match queue (connect_request (Address (peer_at s l))) kConnectReply
               (set_current_peer_ peer s) with
       | Done replies s' log => Done (existsb negb replies) s' log
       | Undefined => Undefined
       end) ∧
  (∀ (queue : CommandQueue) s,
     DisconnectAll_on queue s =
       match queue (CreateRequest "P2P_GROUP_REMOVE" << interface_name_ s)
               kDisconnectAllReply s with
       | Done replies s' log => Done (existsb negb replies) s' log
       | Undefined => Undefined
       end) ∧
  (∀ message callback s,
     ∃ s' log,
       command_queue message callback s = Done [] s' log ∧
       last (command_queue_ s') = Some (message, callback)) ∧
  (∀ s device r s' log, Connect device s = Done r s' log → r = false) ∧
  (∀ s r s' log, DisconnectAll s = Done r s' log → r = false) ∧
  (∀ s, ∃ s' log,
     DisconnectAll s = Done false s' log ∧
     last (command_queue_ s') =
       Some (CreateRequest "P2P_GROUP_REMOVE" << interface_name_ s, kDisconnectAllReply)) ∧
  (∀ s l peer,
     available_devices_ s !! Address (peer_at s l) = Some peer →
     current_peer_ s = None →
     ∃ s' log,
       Connect (Some l) s = Done false s' log ∧
       last (command_queue_ s') =
         Some (connect_request (Address (peer_at s l)), kConnectReply)).
Proof.
  split; [|split; [|split; [|split; [|split; [|split]]]]].
  - intros queue s l peer Hl Hcur.
    pose proof (Connect_on_cases queue s l) as H. by rewrite Hl, Hcur in H.
  - apply DisconnectAll_on_result.
  - intros message callback s. rewrite command_queue_result.
    do 2 eexists. split; [reflexivity|]. simpl. apply last_snoc.
  - intros s [l|] r s' log; [|done].
    pose proof (Connect_on_cases command_queue s l) as H. unfold Connect.
    destruct (available_devices_ s !! _), (current_peer_ s); rewrite H;
      rewrite ?command_queue_result; simpl; congruence.
  - intros s r s' log. unfold DisconnectAll.
    rewrite DisconnectAll_on_result, command_queue_result. simpl. congruence.
  - intros s. unfold DisconnectAll.
    rewrite DisconnectAll_on_result, command_queue_result.
    do 2 eexists. split; [reflexivity|]. simpl. apply last_snoc.
  - intros s l peer Hl Hcur.
    pose proof (Connect_on_cases command_queue s l) as H. rewrite Hl, Hcur in H.
    unfold Connect. rewrite H, command_queue_result.
    do 2 eexists. split; [reflexivity|]. simpl. apply last_snoc.
Qed.

(** Over a queue that runs the handler at once, on a reply that is no
    failure, the same [Connect] returns true; on a failure, false. *)
Example connect_on_immediate_queue :
  Connect_on (λ _ _, mret [false]) (Some 1%positive) s_discovered =
    Done true (set_current_peer_ (Some 1%positive) s_discovered) []
  ∧ Connect_on (λ _ _, mret [true]) (Some 1%positive) s_discovered =
      Done false (set_current_peer_ (Some 1%positive) s_discovered) [].
Proof. split; vm_compute; reflexivity. Qed.

(** The handler of a queue entry is the one [HandleReply] hands back when it
    pops that entry: after [Connect] on an idle queue, the first reply. *)
Example connect_reply_runs_later :
  ∃ s', HandleReply s_connecting = Done (Some kConnectReply) s' []
        ∧ command_queue_ s' = []
        ∧ reply_assigns_ret kConnectReply false = true.
Proof. eexists. repeat split; vm_compute; reflexivity. Qed.

(** C8: [OnAddressAssigned] does nothing without a current peer.  With one,
    it removes the DHCP-acquisition timeout source if one is remembered and
    forgets it, sets the current peer to connected, and notifies the
    delegate of the peer as connected; the current peer stays. *)
Theorem OnAddressAssigned_spec (address : string) (s : Manager) :
  match current_peer_ s with
  | None => OnAddressAssigned address s = Done () s []
  | Some l =>
      ∃ s',
        OnAddressAssigned address s =
          Done () s'
            ((if (0 <? dhcp_timeout_ s)%N then [SourceRemove (dhcp_timeout_ s)] else []) ++
             delegate_calls s [OnDeviceStateChanged (Some l)
                                 (Some (with_State kConnected (peer_at s l)))])
        ∧ dhcp_timeout_ s' = 0%N
        ∧ (∀ id, dhcp_timeout_ s = Npos id → sources s' !! id = None)
        ∧ current_peer_ s' = Some l
        ∧ peer_at s' l = with_State kConnected (peer_at s l)
  end.
Proof.
  destruct (current_peer_ s) as [l|] eqn:Hcur.
  - unfold OnAddressAssigned, delegate_calls. unfold_m. rewrite Hcur.
    destruct (dhcp_timeout_ s) as [|id] eqn:Ht; destruct (delegate_ s) eqn:Hd; simpl;
      rewrite ?Hd; unfold peer_at; simpl; rewrite ?lookup_total_insert_eq;
      eexists; (split; [reflexivity|]); simpl;
      repeat split; try done; try (by rewrite lookup_total_insert_eq).
    all: intros id' [= <-]; apply lookup_delete_eq.
  - unfold OnAddressAssigned. unfold_m. by rewrite Hcur.
Qed.

(** Scenario S2 on the code: the lease arrives while the timeout is armed. *)
Example address_assigned_scenario :
  ∃ s',
    (OnP2pGroupStarted "client";; OnAddressAssigned "192.168.49.3") s_connecting =
      Done () s'
        [Delegate (OnDeviceStateChanged (Some 1%positive) (Some (aquaris_peer kConfiguration)));
         DhcpClientStart;
         SourceAttach 1 dhcp_timeout_source;
         SourceRemove 1;
         Delegate (OnDeviceStateChanged (Some 1%positive) (Some (aquaris_peer kConnected)))]
    ∧ sources s' = ∅ ∧ dhcp_timeout_ s' = 0%N.
Proof. eexists. split; [|split]; vm_compute; reflexivity. Qed.

(** C9: [Reset] always completes, leaving no current peer, an empty peer
    table and a false role flag; run again at once it returns the very same
    state with an empty log, so no delegate is notified; and two runs in
    succession end in the state, and with the log, of the first. *)
Theorem Reset_idempotent (s : Manager) :
  ∃ s1 log1,
    Reset s = Done () s1 log1 ∧
    current_peer_ s1 = None ∧
    available_devices_ s1 = ∅ ∧
    is_group_owner_ s1 = false ∧
    Reset s1 = Done () s1 [] ∧
    (Reset;; Reset) s = Done () s1 log1.
Proof.
  destruct (Reset_runs s) as (s1 & log1 & Hrun & Hcur & Htbl & Hgo & _).
  assert (Hsecond : Reset s1 = Done () s1 []).
  { unfold Reset. unfold_m. rewrite Hcur, Htbl, map_to_list_empty.
    destruct s1 as [[] ? ? ? ? ? ? ? ? ? ? ? ? ? ? ? ?]; crush; by subst. }
  exists s1, log1. repeat split; try done.
  unfold mbind, M_bind. rewrite Hrun, Hsecond. by rewrite app_nil_r.
Qed.

(** A reset in mid-session: one state change, one loss, then silence. *)
Example reset_scenario :
  ∃ s',
    Reset s_connecting =
      Done () s'
        [Delegate (OnDeviceStateChanged (Some 1%positive) (Some (aquaris_peer kDisconnected)));
         DhcpClientStop; DhcpServerStop;
         Delegate (OnDeviceLost (Some 1%positive) (Some (aquaris_peer kDisconnected)))]
    ∧ Reset s' = Done () s' [].
Proof. eexists. split; vm_compute; reflexivity. Qed.

(** Where the claimed behaviour holds: on a peer table whose entries are
    peers filed under their own address, a [P2P-DEVICE-FOUND] event for an
    address that is already a key renames the peer of that entry in place
    and calls nobody: the log is empty, the table (keys and pointers) and
    the current peer are the same, and the peers of all other entries read
    as before. *)
Theorem OnP2pDeviceFound_known (address name config_methods_str : string) (s : Manager) :
  table_well_formed s →
  address ∈ dom (available_devices_ s) →
  ∃ l s',
    available_devices_ s !! address = Some (Some l) ∧
    OnP2pDeviceFound address name config_methods_str s = Done () s' [] ∧
    available_devices_ s' = available_devices_ s ∧
    current_peer_ s' = current_peer_ s ∧
    peer_at s' l = with_Name name (peer_at s l) ∧
    (∀ key peer, key ≠ address → available_devices_ s !! key = Some peer →
       view s' peer = view s peer).
Proof.
  intros Hwf [peer Hpeer]%elem_of_dom.
  destruct (Hwf _ _ Hpeer) as (l & -> & Haddr).
  exists l. eexists. split; [done|].
  unfold OnP2pDeviceFound. unfold mbind, M_bind, get.
  rewrite (update_known_peer_hit _ address name s l); [| | |done].
  - simpl. split; [reflexivity|]. repeat split.
    + rewrite peer_at_insert_eq. destruct (peer_at s l); simpl in *; by subst.
    + intros key peer Hne Hkey. destruct (Hwf _ _ Hkey) as (l' & -> & Haddr').
      simpl. f_equal. rewrite peer_at_insert_ne; [done|]. intros ->. congruence.
  - apply Forall_forall. intros [key peer] Hin%elem_of_map_to_list.
    destruct (Hwf _ _ Hin) as (l' & -> & Haddr'). exists l'. split; [done|].
    intros Heq. simpl in *. assert (key = address) as -> by congruence.
    rewrite Hpeer in Hin. congruence.
  - apply Exists_exists. exists (address, Some l). split; [|done].
    by apply elem_of_map_to_list.
Qed.

Lemma s_discovered_well_formed : table_well_formed s_discovered.
Proof.
  intros key peer Hkey. unfold s_discovered in Hkey. simpl in Hkey.
  apply lookup_singleton_Some in Hkey as [<- <-].
  exists 1%positive. split; reflexivity.
Defined.

Lemma OnP2pDeviceFound_known_witness :
  table_well_formed s_discovered ∧
  aquaris ∈ dom (available_devices_ s_discovered) ∧
  ∃ s',
    OnP2pDeviceFound aquaris "M10 FHD" "0x188" s_discovered = Done () s' [] ∧
    available_devices_ s' = available_devices_ s_discovered ∧
    peer_at s' 1%positive =
      {| Address := aquaris; Name := "M10 FHD"; State := kIdle |}.
Proof.
  assert (Hdom : aquaris ∈ dom (available_devices_ s_discovered)).
  { apply elem_of_dom. exists (Some 1%positive). reflexivity. }
  split; [exact s_discovered_well_formed|]. split; [exact Hdom|].
  destruct (OnP2pDeviceFound_known aquaris "M10 FHD" "0x188" s_discovered
              s_discovered_well_formed Hdom)
    as (l & s' & Hl & Hrun & Htbl & _ & Hpeer & _).
  assert (l = 1%positive) as -> by (vm_compute in Hl; congruence).
  exists s'. split; [exact Hrun|]. split; [exact Htbl|exact Hpeer].
Defined.

(** No entry carries the address and one entry is null: in whatever order
    the loop visits the entries, it comes to dereference the null pointer. *)
Lemma update_known_peer_null entries address name s :
  Forall (λ e, e.2 = None ∨ ∃ l, e.2 = Some l ∧ Address (peer_at s l) ≠ address) entries →
  Exists (λ e, e.2 = None) entries →
  update_known_peer entries address name s = Undefined.
Proof.
  intros Hall Hex. induction Hall as [|[key peer] rest Hhead _ IH].
  { by apply Exists_nil in Hex. }
  simpl in Hhead. destruct Hhead as [->|(l & -> & Hne)]; [reflexivity|].
  apply Exists_cons in Hex as [[=]|Htail].
  simpl. unfold_m. simpl. rewrite bool_decide_eq_true_2 by done. by rewrite (IH Htail).
Qed.

(** C10 (the code departs from the claim): an address can be a key of the
    peer table without a peer behind it, and then [OnP2pDeviceFound] does
    not update anything in place.  On a table whose entries are peers filed
    under their own address, a [P2P-DEVICE-LOST] for an address that is not
    a key completes silently and leaves the address as a key, of a null
    pointer; the [P2P-DEVICE-FOUND] for that address then dereferences the
    null pointer, in whatever order the loop visits the entries. *)
Theorem OnP2pDeviceFound_null_entry (address name config_methods_str : string) (s : Manager) :
  table_well_formed s →
  address ∉ dom (available_devices_ s) →
  ∃ s1,
    OnP2pDeviceLost address s = Done () s1 [] ∧
    address ∈ dom (available_devices_ s1) ∧
    available_devices_ s1 !! address = Some None ∧
    OnP2pDeviceFound address name config_methods_str s1 = Undefined ∧
    ∀ entries, entries ≡ₚ map_to_list (available_devices_ s1) →
      update_known_peer entries address name s1 = Undefined.
Proof.
  intros Hwf Hnone%not_elem_of_dom.
  exists (set_available_devices_ (<[address := None]> (available_devices_ s)) s).
  assert (Hkey : available_devices_
                   (set_available_devices_ (<[address := None]> (available_devices_ s)) s)
                 !! address = Some None) by exact (lookup_insert_eq _ _ _).
  assert (Hloop : ∀ entries,
    entries ≡ₚ map_to_list (<[address := None]> (available_devices_ s)) →
    update_known_peer entries address name
      (set_available_devices_ (<[address := None]> (available_devices_ s)) s) = Undefined).
  { intros entries Hperm. apply update_known_peer_null.
    - apply Forall_forall. intros [key peer] Hin. rewrite Hperm in Hin.
      apply elem_of_map_to_list, lookup_insert_Some in Hin as [[_ <-]|[Hne Hin]]; [by left|].
      right. destruct (Hwf _ _ Hin) as (l & -> & Haddr). exists l. split; [done|].
      change (Address (peer_at s l) ≠ address). congruence.
    - apply Exists_exists. exists (address, None). split; [|done].
      rewrite Hperm. apply elem_of_map_to_list, lookup_insert_eq. }
  split; [|split; [|split; [|split]]].
  - unfold OnP2pDeviceLost, subscript. unfold_m. by rewrite Hnone.
  - apply elem_of_dom. by eexists.
  - exact Hkey.
  - unfold OnP2pDeviceFound. rewrite bind_get. unfold mbind, M_bind.
    change (available_devices_ (set_available_devices_ ?v s)) with v.
    by rewrite (Hloop _ (reflexivity _)).
  - exact Hloop.
Qed.

Lemma OnP2pDeviceFound_null_entry_witness :
  table_well_formed s_discovered ∧
  (tv_address ∉ dom (available_devices_ s_discovered)) ∧
  ∃ s1,
    OnP2pDeviceLost tv_address s_discovered = Done () s1 [] ∧
    available_devices_ s1 !! tv_address = Some None ∧
    available_devices_ s1 !! aquaris = Some (Some 1%positive) ∧
    OnP2pDeviceFound tv_address "TV" "0x88" s1 = Undefined.
Proof.
  assert (Hnew : tv_address ∉ dom (available_devices_ s_discovered)).
  { apply not_elem_of_dom. reflexivity. }
  split; [exact s_discovered_well_formed|]. split; [exact Hnew|].
  destruct (OnP2pDeviceFound_null_entry tv_address "TV" "0x88" s_discovered
              s_discovered_well_formed Hnew)
    as (s1 & Hlost & _ & Hkey & Hfound & _).
  exists s1. split; [exact Hlost|]. split; [exact Hkey|]. split; [|exact Hfound].
  vm_compute in Hlost. injection Hlost as <-. reflexivity.
Defined.

(** * Further properties of the manager *)

(** ** The peer table *)

Lemma s_discovered_sound : table_sound s_discovered.
Proof.
  intros key peer Hkey. unfold s_discovered in Hkey. simpl in Hkey.
  apply lookup_singleton_Some in Hkey as [<- <-].
  exists 1%positive, (aquaris_peer kIdle). split; [done|]. split; reflexivity.
Qed.

Lemma table_sound_invariant_witness :
  table_sound s_discovered ∧ table_sound s_connecting.
Proof.
  split; [exact s_discovered_sound|].
  apply (table_sound_invariant default_env (OpConnect (Some 1%positive)) s_discovered
           s_connecting [Send 0 "P2P_CONNECT 4e:74:03:70:e2:c1 pbc"]).
  - intros address. discriminate.
  - vm_compute. reflexivity.
  - exact s_discovered_sound.
Defined.

(** The exact result of a discovery on a well-formed table, for an address
    in the table and for one that is not. *)
Lemma OnP2pDeviceFound_known_result address name config_methods_str s l :
  table_well_formed s →
  available_devices_ s !! address = Some (Some l) →
  OnP2pDeviceFound address name config_methods_str s =
    Done ()
      (set_heap (<[l := with_Name name (with_Address address (peer_at s l))]> (heap s)) s) [].
Proof.
  intros Hwf Hpeer.
  assert (Haddr : Address (peer_at s l) = address).
  { destruct (Hwf _ _ Hpeer) as (l' & [= <-] & Hl). done. }
  unfold OnP2pDeviceFound. rewrite bind_get.
  erewrite bind_Done; [|apply (update_known_peer_hit _ address name s l); [| |exact Haddr]].
  - reflexivity.
  - apply Forall_forall. intros [key peer] Hin%elem_of_map_to_list.
    destruct (Hwf _ _ Hin) as (l' & -> & Haddr'). exists l'. split; [done|].
    intros Heq. simpl in *. assert (key = address) as -> by congruence.
    rewrite Hpeer in Hin. congruence.
  - apply Exists_exists. exists (address, Some l). split; [|done].
    by apply elem_of_map_to_list.
Qed.

Lemma OnP2pDeviceFound_new_result address name config_methods_str s :
  table_well_formed s →
  available_devices_ s !! address = None →
  let l := fresh (dom (heap s)) in
  OnP2pDeviceFound address name config_methods_str s =
    Done ()
      (set_available_devices_ (<[address := Some l]> (available_devices_ s))
         (set_heap (<[l := new_peer address name]> (heap s)) s))
      (delegate_calls s [OnDeviceFound (Some l) (Some (new_peer address name))]).
Proof.
  intros Hwf Hnone l.
  unfold OnP2pDeviceFound. rewrite bind_get.
  erewrite bind_Done; [|apply (update_known_peer_miss _ address name s)].
  - unfold_m. unfold NewNetworkDevice, delegate_calls. fold l.
    destruct s as [[] ? ? ? ? ? ? ? ? ? ? ? ? ? h ? ?]; simpl in *;
      unfold peer_at; simpl; rewrite !lookup_total_insert_eq, !insert_insert_eq; reflexivity.
  - apply Forall_forall. intros [key peer] Hin%elem_of_map_to_list.
    destruct (Hwf _ _ Hin) as (l' & -> & Haddr'). exists l'. split; [done|].
    simpl. intros Heq. congruence.
Qed.

(** X2: on a well-formed table, [OnP2pDeviceFound] for an address that is
    not a key completes; it creates one peer at a location that was not in
    use, idle and carrying the address and the name of the event, files it
    under the address, and tells the delegate [OnDeviceFound] of it once
    (when a delegate is attached).  The current peer and every other peer
    are as before. *)
Theorem OnP2pDeviceFound_new (address name config_methods_str : string) (s : Manager) :
  table_well_formed s →
  address ∉ dom (available_devices_ s) →
  ∃ l s',
    heap s !! l = None ∧
    OnP2pDeviceFound address name config_methods_str s =
      Done () s' (delegate_calls s [OnDeviceFound (Some l) (Some (new_peer address name))]) ∧
    available_devices_ s' = <[address := Some l]> (available_devices_ s) ∧
    peer_at s' l = new_peer address name ∧
    current_peer_ s' = current_peer_ s ∧
    (∀ l', l' ≠ l → peer_at s' l' = peer_at s l').
Proof.
  intros Hwf Hnone%not_elem_of_dom.
  exists (fresh (dom (heap s))). eexists.
  split; [apply not_elem_of_dom, is_fresh|].
  split; [apply (OnP2pDeviceFound_new_result _ _ _ _ Hwf Hnone)|].
  destruct s; simpl. unfold peer_at; simpl. repeat split.
  - apply lookup_total_insert_eq.
  - intros l' Hne. by apply lookup_total_insert_ne.
Qed.

Lemma OnP2pDeviceFound_new_witness :
  table_well_formed s_discovered ∧
  (tv_address ∉ dom (available_devices_ s_discovered)) ∧
  ∃ s',
    OnP2pDeviceFound tv_address "TV" "0x88" s_discovered =
      Done () s'
        [Delegate (OnDeviceFound (Some 2%positive) (Some (new_peer tv_address "TV")))]
    ∧ available_devices_ s' !! aquaris = Some (Some 1%positive).
Proof.
  assert (Hnew : tv_address ∉ dom (available_devices_ s_discovered)).
  { apply not_elem_of_dom. reflexivity. }
  split; [exact s_discovered_well_formed|]. split; [exact Hnew|].
  destruct (OnP2pDeviceFound_new tv_address "TV" "0x88" s_discovered
              s_discovered_well_formed Hnew)
    as (l & s' & _ & Hrun & _).
  exists s'. rewrite Hrun. vm_compute in Hrun. injection Hrun as <- <-.
  split; reflexivity.
Defined.

(** X3: on a sound table [OnP2pDeviceFound] completes for every address and
    name, and afterwards the address is a key that maps to a peer carrying
    that address and that name; the same event once more, whatever its
    config methods, is then a no-op: same state, empty log. *)
Theorem OnP2pDeviceFound_twice (address name config_methods_str : string) (s : Manager) :
  table_sound s →
  ∃ l s1 log1,
    OnP2pDeviceFound address name config_methods_str s = Done () s1 log1 ∧
    available_devices_ s1 !! address = Some (Some l) ∧
    Address (peer_at s1 l) = address ∧
    Name (peer_at s1 l) = name ∧
    ∀ again, OnP2pDeviceFound address name again s1 = Done () s1 [].
Proof.
  intros Hs. pose proof (table_sound_well_formed _ Hs) as Hwf.
  assert (Hfirst : ∃ l s1 log1 d,
    OnP2pDeviceFound address name config_methods_str s = Done () s1 log1 ∧
    available_devices_ s1 !! address = Some (Some l) ∧
    heap s1 !! l = Some d ∧ Address d = address ∧ Name d = name).
  { destruct (available_devices_ s !! address) as [peer|] eqn:Hpeer.
    - destruct (Hs _ _ Hpeer) as (l & d & -> & Hl & Hd).
      exists l. do 3 eexists. split; [by apply OnP2pDeviceFound_known_result|].
      split; [exact Hpeer|]. split; [exact (lookup_insert_eq _ _ _)|]. split; reflexivity.
    - eexists. do 3 eexists.
      split; [by apply (OnP2pDeviceFound_new_result _ _ _ _ Hwf Hpeer)|].
      split; [exact (lookup_insert_eq _ _ _)|]. split; [exact (lookup_insert_eq _ _ _)|].
      split; reflexivity. }
  destruct Hfirst as (l & s1 & log1 & d & Hrun & Hl & Hd & Haddr & Hname).
  assert (Hs1 : table_sound s1) by (by eapply sound_OnP2pDeviceFound).
  assert (Hread : peer_at s1 l = d) by (unfold peer_at; by apply lookup_total_correct).
  exists l, s1, log1. rewrite Hread. repeat split; try done.
  intros again.
  rewrite (OnP2pDeviceFound_known_result _ _ _ _ l (table_sound_well_formed _ Hs1) Hl).
  rewrite Hread. f_equal.
  replace (with_Name name (with_Address address d)) with d
    by (destruct d; simpl in *; by subst).
  rewrite (insert_id _ _ _ Hd). by destruct s1.
Qed.

Lemma OnP2pDeviceFound_twice_witness :
  table_sound s_discovered ∧
  ∃ s1,
    OnP2pDeviceFound aquaris "M10 FHD" "0x188" s_discovered = Done () s1 [] ∧
    Name (peer_at s1 1%positive) = "M10 FHD" ∧
    OnP2pDeviceFound aquaris "M10 FHD" "0x0" s1 = Done () s1 [].
Proof.
  split; [exact s_discovered_sound|].
  destruct (OnP2pDeviceFound_twice aquaris "M10 FHD" "0x188" s_discovered s_discovered_sound)
    as (l & s1 & log1 & Hrun & Hl & _ & Hname & Hagain).
  exists s1. rewrite Hrun. vm_compute in Hrun. injection Hrun as <- <-.
  split; [reflexivity|]. split; [reflexivity|]. apply Hagain.
Defined.

Lemma OnP2pDeviceLost_peer address s l :
  available_devices_ s !! address = Some (Some l) →
  OnP2pDeviceLost address s =
    Done () s (delegate_calls s [OnDeviceLost (Some l) (Some (peer_at s l))]).
Proof.
  intros Hl. unfold OnP2pDeviceLost, delegate_calls. unfold_m. rewrite Hl. simpl.
  destruct (delegate_ s); reflexivity.
Qed.

(** X4: on a sound table, a peer that is lost and then found again under
    the same address is announced as lost only: [OnP2pDeviceLost] followed
    by [OnP2pDeviceFound] makes the single delegate call [OnDeviceLost],
    and no [OnDeviceFound]; the table is as before and the peer carries the
    name of the second event. *)
Theorem rediscovery_is_silent (address name config_methods_str : string) (s : Manager) :
  table_sound s →
  address ∈ dom (available_devices_ s) →
  ∃ l s',
    available_devices_ s !! address = Some (Some l) ∧
    (OnP2pDeviceLost address;; OnP2pDeviceFound address name config_methods_str) s =
      Done () s' (delegate_calls s [OnDeviceLost (Some l) (Some (peer_at s l))]) ∧
    available_devices_ s' = available_devices_ s ∧
    peer_at s' l = with_Name name (peer_at s l).
Proof.
  intros Hs [peer Hpeer]%elem_of_dom.
  destruct (Hs _ _ Hpeer) as (l & d & -> & Hl & Hd).
  pose proof (table_sound_well_formed _ Hs) as Hwf.
  exists l. eexists. split; [done|].
  rewrite (bind_Done _ _ _ _ _ _ (OnP2pDeviceLost_peer _ _ _ Hpeer)).
  rewrite (OnP2pDeviceFound_known_result _ name config_methods_str _ _ Hwf Hpeer).
  rewrite app_nil_r. split; [reflexivity|]. split; [reflexivity|].
  rewrite peer_at_insert_eq.
  assert (Hread : peer_at s l = d) by (unfold peer_at; by apply lookup_total_correct).
  rewrite Hread. destruct d; simpl in *. by subst.
Qed.

Lemma rediscovery_is_silent_witness :
  table_sound s_discovered ∧
  (aquaris ∈ dom (available_devices_ s_discovered)) ∧
  ∃ s',
    (OnP2pDeviceLost aquaris;; OnP2pDeviceFound aquaris "Aquaris M10" "0x188") s_discovered =
      Done () s' [Delegate (OnDeviceLost (Some 1%positive) (Some (aquaris_peer kIdle)))].
Proof.
  assert (Hdom : aquaris ∈ dom (available_devices_ s_discovered)).
  { apply elem_of_dom. eexists. reflexivity. }
  split; [exact s_discovered_sound|]. split; [exact Hdom|].
  destruct (rediscovery_is_silent aquaris "Aquaris M10" "0x188" s_discovered
              s_discovered_sound Hdom) as (l & s' & Hl & Hrun & _).
  exists s'. rewrite Hrun. injection Hl as <-. reflexivity.
Defined.

(** X5: on a sound table [Devices] returns one pointer per table entry, no
    pointer twice, and exactly the non-null pointers to stored peers that
    the table files under the peer's own address. *)
Theorem Devices_sound (s : Manager) :
  table_sound s →
  length (Devices s) = size (available_devices_ s) ∧
  NoDup (Devices s) ∧
  ∀ p, p ∈ Devices s ↔
       ∃ l d, p = Some l ∧ heap s !! l = Some d ∧
              available_devices_ s !! Address d = Some (Some l).
Proof.
  intros Hs. unfold Devices. split; [|split].
  - by rewrite length_fmap, length_map_to_list.
  - apply NoDup_fmap_2_strong; [|apply NoDup_map_to_list].
    intros [k1 p1] [k2 p2] Hin1%elem_of_map_to_list Hin2%elem_of_map_to_list Heq.
    simpl in Heq. subst p2.
    destruct (Hs _ _ Hin1) as (l1 & d1 & -> & Hl1 & Hd1).
    destruct (Hs _ _ Hin2) as (l2 & d2 & [= <-] & Hl2 & Hd2).
    congruence.
  - intros p. rewrite list_elem_of_fmap. split.
    + intros ([k p'] & -> & Hin%elem_of_map_to_list). simpl.
      destruct (Hs _ _ Hin) as (l & d & -> & Hl & Hd).
      exists l, d. by rewrite Hd.
    + intros (l & d & -> & Hl & Hin). exists (Address d, Some l).
      split; [done|]. by apply elem_of_map_to_list.
Qed.

Lemma Devices_sound_witness :
  table_sound s_discovered ∧ Devices s_discovered = [Some 1%positive] ∧
  length (Devices s_discovered) = size (available_devices_ s_discovered).
Proof.
  split; [exact s_discovered_sound|]. split; [reflexivity|].
  exact (proj1 (Devices_sound s_discovered s_discovered_sound)).
Defined.

(** ** The supervisor *)

Lemma lost_app log1 log2 : lost (log1 ++ log2) = lost log1 ++ lost log2.
Proof. unfold lost. apply omap_app. Qed.

Lemma lost_lose_all (seen : string * Ptr → option NetworkDevice) entries :
  lost ((λ e : string * Ptr, Delegate (OnDeviceLost e.2 (seen e))) <$> entries) = entries.*2.
Proof. induction entries as [|e rest IH]; [done|]. unfold lost in *. simpl. by f_equal. Qed.

(** X6: [StopSupplicant] always completes and leaves the manager not
    running; it changes no member but the pid.  The guard is [pid < 0], so
    it closes a pid of 0 as well: run again on the state it left, it calls
    [g_spawn_close_pid(0)] and leaves the state as it is. *)
Theorem StopSupplicant_spec (s : Manager) :
  ∃ s',
    StopSupplicant s =
      Done () s'
        (if (supplicant_pid_ s <? 0)%Z then [] else [SpawnClosePid (supplicant_pid_ s)]) ∧
    Running s' = false ∧
    set_supplicant_pid_ (supplicant_pid_ s) s' = s ∧
    StopSupplicant s' =
      Done () s' (if (supplicant_pid_ s <? 0)%Z then [] else [SpawnClosePid 0]).
Proof.
  unfold StopSupplicant, Running. unfold_m.
  destruct s as [? ? ? ? ? ? ? ? ? pid ? ? ? ? ? ? ?]; simpl.
  destruct (pid <? 0)%Z eqn:Hpid; simpl.
  - eexists. split; [reflexivity|]. simpl. rewrite Hpid.
    repeat split. apply Z.ltb_lt in Hpid. apply Z.ltb_ge. lia.
  - eexists. split; [reflexivity|]. simpl. done.
Qed.

(** X7: on a hang-up of the control socket [OnIncomingMessages] returns
    [TRUE], so the watch stays, and only stops the supplicant: the manager
    is not running afterwards, every member but the pid is unchanged (peer
    table, current peer, socket, channel and watch among them), no source
    is attached or removed, nothing is closed and the delegate is told of
    no loss. *)
Theorem OnIncomingHangup_keeps_session (s : Manager) :
  ∃ s' log,
    OnIncomingHangup s = Done true s' log ∧
    Running s' = false ∧
    set_supplicant_pid_ (supplicant_pid_ s) s' = s ∧
    attached log = [] ∧
    lost log = [] ∧
    (∀ tag, SourceRemove tag ∉ log) ∧
    (∀ fd, Close fd ∉ log).
Proof.
  unfold OnIncomingHangup, StopSupplicant, Running. unfold_m.
  destruct s as [? ? ? ? ? ? ? ? ? pid ? ? ? ? ? ? ?]; simpl.
  destruct (pid <? 0)%Z eqn:Hpid; simpl.
  - do 2 eexists. split; [reflexivity|]. simpl.
    repeat split; try (intros ? ?%elem_of_nil; done).
    apply Z.ltb_lt in Hpid. apply Z.ltb_ge. lia.
  - do 2 eexists. split; [reflexivity|]. simpl.
    repeat split; intros ? [=]%list_elem_of_singleton.
Qed.

(** X8: [DisconnectSupplicant] always completes, and run again on the
    state it left it changes nothing and calls nothing.  With a negative
    socket it does nothing at all; otherwise the channel is dropped, the
    watch id and the socket are zeroed, and the watch source is detached. *)
Theorem DisconnectSupplicant_idempotent (s : Manager) :
  ∃ s1 log1,
    DisconnectSupplicant s = Done () s1 log1 ∧
    DisconnectSupplicant s1 = Done () s1 [] ∧
    ((sock_ s < 0)%Z → s1 = s ∧ log1 = []) ∧
    ((0 ≤ sock_ s)%Z →
       channel_ s1 = false ∧ channel_watch_ s1 = 0%N ∧ sock_ s1 = 0%Z ∧
       ∀ id, channel_watch_ s = Npos id → sources s1 !! id = None).
Proof.
  unfold DisconnectSupplicant. unfold_m.
  destruct s as [? ? ? ? ? ? ? ? ? ? sk [] [|w] ? ? ? ?]; simpl;
    destruct (sk <? 0)%Z eqn:Hneg; destruct (0 <? sk)%Z eqn:Hpos; simpl;
    do 2 eexists; (split; [reflexivity|]); simpl; rewrite ?Hneg, ?Hpos; simpl;
    (split; [reflexivity|]);
    apply Z.ltb_ge in Hneg || apply Z.ltb_lt in Hneg;
    apply Z.ltb_ge in Hpos || apply Z.ltb_lt in Hpos;
    (split; [intros; try lia; done|]); intros; try lia;
    repeat split; try done; try lia;
    intros id [= <-]; apply lookup_delete_eq.
Qed.

Lemma Reset_lost s :
  ∃ s' log, Reset s = Done () s' log ∧
    current_peer_ s' = None ∧ available_devices_ s' = ∅ ∧ is_group_owner_ s' = false ∧
    supplicant_pid_ s' = supplicant_pid_ s ∧ sock_ s' = sock_ s ∧
    channel_ s' = channel_ s ∧ channel_watch_ s' = channel_watch_ s ∧
    lost log = if delegate_ s then Devices s else [].
Proof.
  unfold Reset, Devices. unfold_m.
  destruct s as [[] ? ? tbl [l|] [|dt] ? ? ? ? ? ? ? ? ? ? ?]; crush;
    rewrite ?lose_all_total; crush;
    do 2 eexists; (split; [reflexivity|]); repeat split; try done;
    rewrite ?app_nil_r; simpl.
  all: apply lost_lose_all.
Qed.

Lemma StopSupplicant_frame s :
  ∃ s' log, StopSupplicant s = Done () s' log ∧ Running s' = false ∧
    delegate_ s' = delegate_ s ∧ available_devices_ s' = available_devices_ s ∧
    sock_ s' = sock_ s ∧ channel_ s' = channel_ s ∧ channel_watch_ s' = channel_watch_ s ∧
    lost log = [].
Proof.
  unfold StopSupplicant, Running. unfold_m.
  destruct s as [? ? ? ? ? ? ? ? ? pid ? ? ? ? ? ? ?]; simpl.
  destruct (pid <? 0)%Z eqn:Hpid; simpl; do 2 eexists; (split; [reflexivity|]);
    simpl; repeat split.
  apply Z.ltb_lt in Hpid. apply Z.ltb_ge. lia.
Qed.

Lemma DisconnectSupplicant_frame s :
  ∃ s' log, DisconnectSupplicant s = Done () s' log ∧
    delegate_ s' = delegate_ s ∧ available_devices_ s' = available_devices_ s ∧
    ((0 ≤ sock_ s)%Z → channel_ s' = false ∧ channel_watch_ s' = 0%N ∧ sock_ s' = 0%Z) ∧
    lost log = [].
Proof.
  unfold DisconnectSupplicant. unfold_m.
  destruct s as [? ? ? ? ? ? ? ? ? ? sk [] [|w] ? ? ? ?]; simpl;
    destruct (sk <? 0)%Z eqn:Hneg; destruct (0 <? sk)%Z eqn:Hpos; simpl;
    do 2 eexists; (split; [reflexivity|]); simpl;
    apply Z.ltb_ge in Hneg || apply Z.ltb_lt in Hneg;
    apply Z.ltb_ge in Hpos || apply Z.ltb_lt in Hpos;
    repeat split; try done; try lia.
Qed.

(** X9: [OnSupplicantWatch] ignores an exit with status 0: same state,
    empty log.  On any other status it completes and leaves the manager not
    running, without current peer, with an empty peer table and a false
    role flag; the control connection is dropped when a socket was set; and
    the delegate, if attached, is told [OnDeviceLost] for exactly the peers
    [Devices] listed, in that order. *)
Theorem OnSupplicantWatch_spec (pid status : Z) (s : Manager) :
  (status = 0%Z → OnSupplicantWatch pid status s = Done () s []) ∧
  (status ≠ 0%Z →
     ∃ s' log,
       OnSupplicantWatch pid status s = Done () s' log ∧
       Running s' = false ∧
       current_peer_ s' = None ∧
       available_devices_ s' = ∅ ∧
       is_group_owner_ s' = false ∧
       ((0 ≤ sock_ s)%Z → channel_ s' = false ∧ channel_watch_ s' = 0%N ∧ sock_ s' = 0%Z) ∧
       lost log = if delegate_ s then Devices s else []).
Proof.
  unfold OnSupplicantWatch. split.
  - intros ->. reflexivity.
  - intros Hstatus. rewrite bool_decide_false by done.
    unfold HandleSupplicantFailed. rewrite bind_get.
    match goal with |- context [mbind _ ?m s] =>
      assert (Hhead : ∃ s1 log1, m s = Done () s1 log1 ∧
                delegate_ s1 = delegate_ s ∧ available_devices_ s1 = available_devices_ s ∧
                sock_ s1 = sock_ s ∧ lost log1 = [])
    end.
    { unfold_m. destruct s as [? ? ? ? ? ? [|limit] [|src] ? ? ? ? ? ? ? ? ?]; simpl;
        do 2 eexists; (split; [reflexivity|]); done. }
    destruct Hhead as (s1 & log1 & Hrun1 & Hd1 & Ht1 & Hk1 & Hl1).
    destruct (DisconnectSupplicant_frame s1) as (s2 & log2 & Hrun2 & Hd2 & Ht2 & Hk2 & Hl2).
    destruct (StopSupplicant_frame s2)
      as (s3 & log3 & Hrun3 & Hpid3 & Hd3 & Ht3 & Hk3 & Hc3 & Hw3 & Hl3).
    destruct (Reset_lost s3)
      as (s4 & log4 & Hrun4 & Hcur & Htbl & Hgo & Hpid4 & Hk4 & Hc4 & Hw4 & Hl4).
    rewrite (bind_Done _ _ _ _ _ _ Hrun1), (bind_Done _ _ _ _ _ _ Hrun2),
      (bind_Done _ _ _ _ _ _ Hrun3), Hrun4.
    do 2 eexists. split; [reflexivity|].
    rewrite !lost_app, Hl1, Hl2, Hl3, Hl4. simpl.
    unfold Running in *. unfold Devices. rewrite Hpid4, Hd3, Hd2, Hd1, Ht3, Ht2, Ht1.
    do 4 (split; [done|]). split; [|done].
    intros Hsock. rewrite <- Hk1 in Hsock. destruct (Hk2 Hsock) as (? & ? & ?).
    repeat split; congruence.
Qed.

(** X10: [ConnectSupplicant] always completes and returns true exactly
    when [socket], [bind] and [connect] all succeed.  It stores the socket
    and never closes one, also not on failure.  On success the queue grows
    by the three requests ATTACH, SET wifi_display 1 and WFD_SUBELEM_SET 0
    000600101C440032 in this order, the respawn budget is 10, and one
    source, the watch on the socket, is attached and its id stored.  On
    failure queue, budget, channel and watch are as before and no source is
    attached. *)
Theorem ConnectSupplicant_spec (env : Env) (s : Manager) :
  ∃ s' log,
    ConnectSupplicant env s = Done (connect_ok env) s' log ∧
    sock_ s' = socket_fd env ∧
    (∀ fd, Close fd ∉ log) ∧
    if connect_ok env then
      command_queue_ s' = command_queue_ s ++ attach_requests ∧
      respawn_limit_ s' = kSupplicantRespawnLimit ∧
      channel_ s' = true ∧
      channel_watch_ s' = Npos (next_source_id s) ∧
      attached log = [(next_source_id s, IOWatch (socket_fd env))]
    else
      command_queue_ s' = command_queue_ s ∧
      respawn_limit_ s' = respawn_limit_ s ∧
      channel_ s' = channel_ s ∧
      channel_watch_ s' = channel_watch_ s ∧
      attached log = [].
Proof.
  unfold ConnectSupplicant, SetWfdSubElements, connect_ok. simpl. unfold_m.
  destruct s as [? ? ? ? ? ? ? ? ? ? ? ? ? q ? ? ?]; simpl.
  rewrite !Z.leb_antisym.
  destruct (socket_fd env <? 0)%Z; simpl.
  { do 2 eexists. split; [reflexivity|]. repeat split. intros fd []%elem_of_nil. }
  destruct (local_path_exists env); simpl;
    (destruct (bind_ret env <? 0)%Z; simpl;
      [do 2 eexists; (split; [reflexivity|]); repeat split;
       intros fd Hin; repeat (apply elem_of_cons in Hin as [[=]|Hin]); by apply elem_of_nil in Hin|]);
    (destruct (connect_ret env <? 0)%Z; simpl;
      [do 2 eexists; (split; [reflexivity|]); repeat split;
       intros fd Hin; repeat (apply elem_of_cons in Hin as [[=]|Hin]); by apply elem_of_nil in Hin|]);
    destruct q; simpl; do 2 eexists; (split; [reflexivity|]); simpl;
    (split; [done|]); (split; [|repeat split; by rewrite <- ?app_assoc]);
    intros fd Hin; repeat (apply elem_of_cons in Hin as [[=]|Hin]); by apply elem_of_nil in Hin.
Qed.

Lemma int_of_uint_small (n : N) : (n < 2 ^ 31)%N → (int_of_uint n <? 0)%Z = false.
Proof.
  intros Hn. unfold int_of_uint.
  assert (Hz : (0 ≤ Z.of_N n < 2 ^ 31)%Z).
  { change (2 ^ 31)%Z with (Z.of_N (2 ^ 31)). lia. }
  rewrite Z.mod_small by lia.
  destruct (Z.ltb_spec (Z.of_N n) (2 ^ 31)); [|lia]. apply Z.ltb_ge. lia.
Qed.

(** [StartSupplicant] when the configuration file cannot be written. *)
Lemma StartSupplicant_no_config env s :
  file_set_contents_ok env = false →
  ∃ contents,
    StartSupplicant env s =
      Done false s [FileSetContents ("/tmp/supplicant-" +:+ interface_name_ s +:+ ".conf") contents].
Proof.
  intros Hfile. unfold StartSupplicant, CreateSupplicantConfig. unfold_m. rewrite Hfile.
  simpl. eexists. reflexivity.
Qed.

(** X11: as long as source ids fit a non-negative [int],
    [StartSupplicant] returns what writing the configuration file returns.
    If the file cannot be written, nothing is spawned and the state is
    unchanged.  If it is written the function returns true whether or not
    the spawn succeeds: the pid is the new one after a successful spawn and
    the former one otherwise, a child watch on that pid and the 500 ms
    connect timer are attached, in this order. *)
Theorem StartSupplicant_spec (env : Env) (s : Manager) :
  (Npos (next_source_id s) < 2 ^ 31)%N →
  ∃ s' log,
    StartSupplicant env s = Done (file_set_contents_ok env) s' log ∧
    if file_set_contents_ok env then
      supplicant_pid_ s' = (if spawn_ok env then spawn_pid env else supplicant_pid_ s) ∧
      attached log =
        [(next_source_id s, ChildWatch (supplicant_pid_ s'));
         (Pos.succ (next_source_id s), Timeout 500 kOnConnectSupplicant)]
    else
      s' = s ∧ attached log = [] ∧ ∀ cmdline, SpawnAsync cmdline ∉ log.
Proof.
  intros Hid.
  destruct (file_set_contents_ok env) eqn:Hfile.
  - unfold StartSupplicant, CreateSupplicantConfig. unfold_m. rewrite Hfile.
    pose proof (int_of_uint_small _ Hid) as Herr.
    destruct s as [? ? ? ? ? ? ? ? ? pid ? ? ? ? ? ? id]; simpl in *.
    destruct (spawn_ok env); simpl; rewrite Herr; simpl;
      do 2 eexists; (split; [reflexivity|]); done.
  - destruct (StartSupplicant_no_config env s Hfile) as (contents & ->).
    do 2 eexists. split; [reflexivity|]. repeat split.
    intros cmdline [=]%list_elem_of_singleton.
Qed.

Lemma StartSupplicant_spec_witness :
  (Npos (next_source_id (initial true (-1) (-1))) < 2 ^ 31)%N ∧
  ∃ s' log,
    StartSupplicant no_spawn_env (initial true (-1) (-1)) = Done true s' log ∧
    supplicant_pid_ s' = (-1)%Z ∧
    attached log = [(1%positive, ChildWatch (-1)); (2%positive, Timeout 500 kOnConnectSupplicant)].
Proof.
  assert (Hid : (Npos (next_source_id (initial true (-1) (-1))) < 2 ^ 31)%N) by reflexivity.
  split; [exact Hid|].
  destruct (StartSupplicant_spec no_spawn_env (initial true (-1) (-1)) Hid)
    as (s' & log & Hrun & Hpid & Hlog).
  exists s', log. split; [exact Hrun|]. split; [exact Hpid|]. rewrite Hlog, Hpid. reflexivity.
Defined.

(** The respawn callback when the configuration file cannot be written. *)
Lemma OnSupplicantRespawn_no_config env s :
  file_set_contents_ok env = false →
  ∃ contents,
    OnSupplicantRespawn env s =
      Done (0 <? respawn_limit_ s)%N
        (if (0 <? respawn_limit_ s)%N then set_respawn_limit_ (uint_dec (respawn_limit_ s)) s
         else s)
        [FileSetContents ("/tmp/supplicant-" +:+ interface_name_ s +:+ ".conf") contents].
Proof.
  intros Hfile.
  destruct (StartSupplicant_no_config env s Hfile) as (contents & Hstart).
  exists contents. unfold OnSupplicantRespawn.
  rewrite (bind_Done _ _ _ _ _ _ Hstart), bind_get. simpl.
  destruct (0 <? respawn_limit_ s)%N; reflexivity.
Qed.

Lemma dispatch_respawn_again env s id t :
  file_set_contents_ok env = false →
  sources s !! id = Some (Timeout t kOnSupplicantRespawn) →
  (0 < respawn_limit_ s)%N →
  ∃ contents,
    dispatch_timeout env id s =
      Done () (set_respawn_limit_ (uint_dec (respawn_limit_ s)) s)
        [FileSetContents ("/tmp/supplicant-" +:+ interface_name_ s +:+ ".conf") contents].
Proof.
  intros Hfile Hsrc Hpos%N.ltb_lt.
  destruct (OnSupplicantRespawn_no_config env s Hfile) as (contents & Hrun).
  exists contents. unfold dispatch_timeout. rewrite bind_get, Hsrc. simpl.
  rewrite (bind_Done _ _ _ _ _ _ Hrun), Hpos. reflexivity.
Qed.

Lemma dispatch_respawn_last env s id t :
  file_set_contents_ok env = false →
  sources s !! id = Some (Timeout t kOnSupplicantRespawn) →
  respawn_limit_ s = 0%N →
  ∃ contents,
    dispatch_timeout env id s =
      Done () (set_sources (delete id (sources s)) s)
        [FileSetContents ("/tmp/supplicant-" +:+ interface_name_ s +:+ ".conf") contents;
         SourceRemove (Npos id)].
Proof.
  intros Hfile Hsrc Hzero.
  destruct (OnSupplicantRespawn_no_config env s Hfile) as (contents & Hrun).
  exists contents. unfold dispatch_timeout. rewrite bind_get, Hsrc. simpl.
  rewrite (bind_Done _ _ _ _ _ _ Hrun), Hzero. reflexivity.
Qed.

Lemma config_writes_app log1 log2 :
  config_writes (log1 ++ log2) = config_writes log1 ++ config_writes log2.
Proof. unfold config_writes. apply omap_app. Qed.

Lemma respawn_retries env id t (n : nat) : ∀ s,
  file_set_contents_ok env = false →
  sources s !! id = Some (Timeout t kOnSupplicantRespawn) →
  respawn_limit_ s = N.of_nat n →
  (respawn_limit_ s < uint_modulus)%N →
  ∃ s' log,
    dispatch_times env id (S n) s = Done () s' log ∧
    s' = set_sources (delete id (sources s)) (set_respawn_limit_ 0 s) ∧
    attached log = [] ∧
    (∀ cmdline, SpawnAsync cmdline ∉ log) ∧
    length (config_writes log) = S n.
Proof.
  induction n as [|n IH]; intros s Hfile Hsrc Hlimit Hrange.
  - destruct (dispatch_respawn_last env s id t Hfile Hsrc Hlimit) as (contents & Hrun).
    cbn [dispatch_times]. rewrite (bind_Done _ _ _ _ _ _ Hrun). simpl.
    do 2 eexists. split; [reflexivity|]. destruct s; simpl in *. subst.
    repeat split; try done.
    intros cmdline Hin. repeat (apply elem_of_cons in Hin as [[=]|Hin]). by apply elem_of_nil in Hin.
  - assert (Hpos : (0 < respawn_limit_ s)%N) by lia.
    destruct (dispatch_respawn_again env s id t Hfile Hsrc Hpos) as (contents & Hrun).
    set (s1 := set_respawn_limit_ (uint_dec (respawn_limit_ s)) s) in *.
    assert (Hlimit1 : respawn_limit_ s1 = N.of_nat n).
    { unfold s1. destruct s; simpl in *. rewrite uint_dec_pred by lia. lia. }
    destruct (IH s1) as (s' & log & Hrest & Hstate & Hatt & Hspawn & Hwrites).
    { done. }
    { unfold s1. by destruct s. }
    { done. }
    { rewrite Hlimit1. lia. }
    change (dispatch_times env id (S (S n)))
      with (dispatch_timeout env id;; dispatch_times env id (S n)).
    rewrite (bind_Done _ _ _ _ _ _ Hrun), Hrest.
    do 2 eexists. split; [reflexivity|].
    split; [rewrite Hstate; unfold s1; by destruct s|].
    split; [by rewrite attached_app, Hatt|].
    split.
    + intros cmdline [Hin|Hin]%elem_of_app; [|by eapply Hspawn].
      by apply list_elem_of_singleton in Hin.
    + rewrite config_writes_app, length_app, Hwrites. reflexivity.
Qed.

(** X12: while the configuration file cannot be written, an attached
    respawn source with a budget of [n] fires [n + 1] times: every dispatch
    writes the file once, nothing is spawned and no source is attached; in
    the end the budget is 0, the source is destroyed and every other member
    is as before. *)
Theorem respawn_retries_bounded (env : Env) (s : Manager) (id : positive) (t : N) :
  file_set_contents_ok env = false →
  sources s !! id = Some (Timeout t kOnSupplicantRespawn) →
  (respawn_limit_ s < uint_modulus)%N →
  ∃ s' log,
    dispatch_times env id (S (N.to_nat (respawn_limit_ s))) s = Done () s' log ∧
    s' = set_sources (delete id (sources s)) (set_respawn_limit_ 0 s) ∧
    attached log = [] ∧
    (∀ cmdline, SpawnAsync cmdline ∉ log) ∧
    length (config_writes log) = S (N.to_nat (respawn_limit_ s)).
Proof.
  intros Hfile Hsrc Hrange.
  apply (respawn_retries env id t); try done. by rewrite N2Nat.id.
Qed.

Lemma respawn_retries_bounded_witness :
  file_set_contents_ok no_config_env = false ∧
  sources s_respawning !! 1%positive = Some (Timeout kSupplicantRespawnTimeout kOnSupplicantRespawn) ∧
  (respawn_limit_ s_respawning < uint_modulus)%N ∧
  ∃ s' log,
    dispatch_times no_config_env 1 3 s_respawning = Done () s' log ∧
    respawn_limit_ s' = 0%N ∧ sources s' = ∅.
Proof.
  split; [reflexivity|]. split; [reflexivity|]. split; [reflexivity|].
  destruct (respawn_retries_bounded no_config_env s_respawning 1
              kSupplicantRespawnTimeout eq_refl eq_refl eq_refl)
    as (s' & log & Hrun & -> & _).
  do 2 eexists. split; [exact Hrun|]. split; reflexivity.
Defined.

(** ** The respawn and connect timers *)

Lemma respawn_kept_refl s : respawn_kept s s [].
Proof. by split. Qed.

Lemma respawn_kept_trans s1 s2 s3 log1 log2 :
  respawn_kept s1 s2 log1 → respawn_kept s2 s3 log2 → respawn_kept s1 s3 (log1 ++ log2).
Proof. intros [Hid1 H1] [Hid2 H2]. split; [congruence|]. intros id interval H. auto. Qed.

Lemma respawn_kept_one s s' log :
  respawn_kept s s' log → one_respawn_source s → one_respawn_source s'.
Proof. intros [Hid Hsrc] Hone id interval H. rewrite Hid. eapply Hone, Hsrc, H. Qed.

Create HintDb respawn.

Lemma respawn_g_source_attach src :
  (∀ interval, src ≠ Timeout interval kOnSupplicantRespawn) →
  post respawn_kept (g_source_attach src).
Proof.
  intros Hsrc. apply post_g_source_attach. intros s. split; [reflexivity|].
  intros id interval H. simpl in H.
  apply lookup_insert_Some in H as [[_ H]|[_ H]]; [by destruct (Hsrc interval)|done].
Qed.

Lemma respawn_g_source_remove tag : post respawn_kept (g_source_remove tag).
Proof.
  unfold g_source_remove.
  apply (post_bind _ respawn_kept_trans).
  - apply post_emit. intros s. apply respawn_kept_refl.
  - intros _. destruct tag as [|id]; [apply (post_skip _ respawn_kept_refl)|].
    apply post_modify. intros s. split; [reflexivity|].
    intros id' interval H. simpl in H. by apply lookup_delete_Some in H as [_ H].
Qed.

Lemma respawn_NewNetworkDevice : post respawn_kept NewNetworkDevice.
Proof. intros s a s' log [= _ <- <-]. by split. Qed.

#[local] Hint Resolve respawn_g_source_remove respawn_NewNetworkDevice : respawn.

Ltac respawn_auto :=
  repeat first
    [ solve [auto with respawn]
    | post_step respawn_kept_refl respawn_kept_trans
    | progress unfold NotifyDeviceFound, NotifyDeviceLost, NotifyDeviceStateChanged, notify,
        SetState, SetName, SetAddress, GetAddress, update_peer, g_timeout_add,
        RequestAsync, EnqueueCommand, OnWriteMessage, subscript
    | solve [ apply respawn_g_source_attach; intros ?; discriminate ]
    | solve [ by split ] ].

Lemma respawn_update_known_peer entries address name :
  post respawn_kept (update_known_peer entries address name).
Proof. induction entries as [|[key peer] rest IH]; simpl; respawn_auto. Qed.

Lemma respawn_lose_all entries : post respawn_kept (lose_all entries).
Proof. induction entries as [|[key peer] rest IH]; simpl; respawn_auto. Qed.

Lemma respawn_set_wfd_sub_elements_from n elements :
  post respawn_kept (set_wfd_sub_elements_from n elements).
Proof. revert n. induction elements as [|e rest IH]; intros n; simpl; respawn_auto. Qed.

#[local] Hint Resolve respawn_update_known_peer respawn_lose_all
  respawn_set_wfd_sub_elements_from : respawn.

Lemma respawn_Reset : post respawn_kept Reset.
Proof. unfold Reset. respawn_auto. Qed.

Lemma respawn_StopSupplicant : post respawn_kept StopSupplicant.
Proof. unfold StopSupplicant. respawn_auto. Qed.

Lemma respawn_DisconnectSupplicant : post respawn_kept DisconnectSupplicant.
Proof. unfold DisconnectSupplicant. respawn_auto. Qed.

#[local] Hint Resolve respawn_Reset respawn_StopSupplicant respawn_DisconnectSupplicant : respawn.

Lemma respawn_StartSupplicant env : post respawn_kept (StartSupplicant env).
Proof. unfold StartSupplicant, CreateSupplicantConfig. respawn_auto. Qed.

Lemma respawn_ConnectSupplicant env : post respawn_kept (ConnectSupplicant env).
Proof. unfold ConnectSupplicant, SetWfdSubElements. respawn_auto. Qed.

#[local] Hint Resolve respawn_StartSupplicant respawn_ConnectSupplicant : respawn.

Lemma respawn_run env op :
  (∀ pid status, op ≠ OpSupplicantWatch pid status) → post respawn_kept (run env op).
Proof.
  destruct op; intros Hop; simpl;
    try (exfalso; by eapply Hop);
    unfold Setup, OnFirmwareLoaded, OnFirmwareUnloaded, OnP2pDeviceFound, OnP2pDeviceLost,
      OnP2pGroupStarted, OnP2pGroupRemoved, HandleReply, OnIncomingHangup,
      OnConnectSupplicant, OnSupplicantRespawn,
      OnAddressAssigned, OnDeviceFailureTimeout, OnGroupClientDhcpTimeout, Scan, Connect,
      DisconnectAll, Connect_on, DisconnectAll_on, RequestAsync_on, command_queue;
    respawn_auto.
Qed.

Lemma respawn_dispatch_timeout env id : post respawn_kept (dispatch_timeout env id).
Proof.
  unfold dispatch_timeout. apply (post_bind _ respawn_kept_trans); [apply post_get, respawn_kept_refl|].
  intros s. destruct (sources s !! id) as [[interval func| |]|];
    try apply (post_skip _ respawn_kept_refl).
  destruct func; simpl;
    unfold OnConnectSupplicant, OnSupplicantRespawn, OnDeviceFailureTimeout,
      OnGroupClientDhcpTimeout;
    respawn_auto.
Qed.

Lemma respawn_teardown : post respawn_kept (DisconnectSupplicant;; StopSupplicant;; Reset).
Proof. respawn_auto. Qed.

Lemma one_respawn_source_HandleSupplicantFailed s s' log :
  HandleSupplicantFailed s = Done () s' log →
  one_respawn_source s → one_respawn_source s'.
Proof.
  unfold HandleSupplicantFailed. rewrite bind_get. intros Hrun Hone.
  match type of Hrun with context [mbind _ ?m s] =>
    assert (Hhead : ∃ s1 log1, m s = Done () s1 log1 ∧ one_respawn_source s1)
  end.
  { unfold_m.
    destruct s as [? ? ? ? ? ? [|limit] [|src] ? ? ? ? ? ? ? srcs next]; simpl in *;
      do 2 eexists; (split; [reflexivity|]); try done;
      intros id interval H; simpl in *;
      apply lookup_insert_Some in H as [[<- _]|[Hne H]]; try reflexivity.
    - by apply Hone in H.
    - apply lookup_delete_Some in H as [Hne' H]. apply Hone in H. simpl in H. congruence. }
  destruct Hhead as (s1 & log1 & Hrun1 & Hone1).
  rewrite (bind_Done _ _ _ _ _ _ Hrun1) in Hrun.
  destruct ((DisconnectSupplicant;; StopSupplicant;; Reset) s1) as [[] s2 log2|] eqn:Hrun2;
    [|done].
  injection Hrun as <- _.
  exact (respawn_kept_one _ _ _ (respawn_teardown _ _ _ _ Hrun2) Hone1).
Qed.

(** X21: at most one respawn timer is pending.  If every respawn source
    in the main context is the one whose id [respawn_source_] holds, this
    is so again after any entry point of the manager has run to completion
    and after any dispatch of a timeout source; so no two respawn sources
    are ever attached at the same time. *)
Theorem respawn_source_unique (env : Env) (op : Op) (s s' : Manager) (log : list Effect) :
  run env op s = Done () s' log ∨ (∃ id, dispatch_timeout env id s = Done () s' log) →
  one_respawn_source s →
  one_respawn_source s' ∧
  ∀ id id' interval interval',
    sources s' !! id = Some (Timeout interval kOnSupplicantRespawn) →
    sources s' !! id' = Some (Timeout interval' kOnSupplicantRespawn) →
    id = id'.
Proof.
  intros [Hrun|[id Hrun]] Hone;
    [|split; [|intros id1 id2 interval interval' H H'];
      pose proof (respawn_kept_one _ _ _ (respawn_dispatch_timeout env id _ _ _ _ Hrun) Hone)
        as Hone';
      [exact Hone'|apply Hone' in H, H'; congruence]].
  assert (Hone' : one_respawn_source s').
  { assert (Hcase : (∃ pid status, op = OpSupplicantWatch pid status) ∨
                    (∀ pid status, op ≠ OpSupplicantWatch pid status)).
    { destruct op; try (right; intros ? ?; discriminate). left. eauto. }
    destruct Hcase as [(pid & status & ->)|Hother].
    - simpl in Hrun. unfold OnSupplicantWatch in Hrun.
      destruct (bool_decide (status = 0%Z)).
      + by injection Hrun as <- _.
      + by eapply one_respawn_source_HandleSupplicantFailed.
    - exact (respawn_kept_one _ _ _ (respawn_run env op Hother _ _ _ _ Hrun) Hone). }
  split; [exact Hone'|].
  intros id id' interval interval' H H'.
  apply Hone' in H, H'. congruence.
Qed.

Lemma one_respawn_source_initial delegate pid sock :
  one_respawn_source (initial delegate pid sock).
Proof. intros id interval H. simpl in H. by rewrite lookup_empty in H. Qed.

Lemma respawn_source_unique_witness :
  one_respawn_source s_discovered ∧
  ∃ s',
    run default_env (OpSupplicantWatch 4242 1) s_discovered =
      Done () s'
        [SourceAttach 1 respawn_source; SpawnClosePid 0;
         Delegate (OnDeviceLost (Some 1%positive) (Some (aquaris_peer kIdle)))] ∧
    respawn_source_ s' = 1%N ∧
    one_respawn_source s'.
Proof.
  assert (Hone : one_respawn_source s_discovered).
  { intros id interval H. simpl in H. by rewrite lookup_empty in H. }
  split; [exact Hone|].
  eexists. split; [vm_compute; reflexivity|]. split; [reflexivity|].
  refine (proj1 (respawn_source_unique default_env (OpSupplicantWatch 4242 1) s_discovered _ _
                   (or_introl _) Hone)).
  vm_compute. reflexivity.
Defined.

Lemma ConnectSupplicant_sources env s :
  ∃ s1 log1,
    ConnectSupplicant env s = Done (connect_ok env) s1 log1 ∧
    respawn_limit_ s1 =
      (if connect_ok env then kSupplicantRespawnLimit else respawn_limit_ s) ∧
    sources s1 =
      (if connect_ok env then <[next_source_id s := IOWatch (socket_fd env)]> (sources s)
       else sources s) ∧
    ∀ tag, SourceRemove tag ∉ log1.
Proof.
  unfold ConnectSupplicant, SetWfdSubElements, connect_ok. simpl. unfold_m.
  destruct s as [? ? ? ? ? ? ? ? ? ? ? ? ? q ? ? ?]; simpl.
  rewrite !Z.leb_antisym.
  destruct (socket_fd env <? 0)%Z; simpl.
  { do 2 eexists. split; [reflexivity|]. repeat split. intros tag []%elem_of_nil. }
  destruct (local_path_exists env); simpl;
    (destruct (bind_ret env <? 0)%Z; simpl;
      [do 2 eexists; (split; [reflexivity|]); repeat split;
       intros tag Hin; repeat (apply elem_of_cons in Hin as [[=]|Hin]); by apply elem_of_nil in Hin|]);
    (destruct (connect_ret env <? 0)%Z; simpl;
      [do 2 eexists; (split; [reflexivity|]); repeat split;
       intros tag Hin; repeat (apply elem_of_cons in Hin as [[=]|Hin]); by apply elem_of_nil in Hin|]);
    destruct q; simpl; do 2 eexists; (split; [reflexivity|]); simpl; repeat split;
    intros tag Hin; repeat (apply elem_of_cons in Hin as [[=]|Hin]); by apply elem_of_nil in Hin.
Qed.

(** X22: the connect timer repeats until the connect succeeds.  A
    dispatch of an attached [OnConnectSupplicant] source always completes;
    if [socket], [bind] and [connect] succeed the source is destroyed and
    the respawn budget is 10; otherwise the source stays attached, the
    budget is as before and no source is removed. *)
Theorem connect_timer_repeats (env : Env) (s : Manager) (id : positive) (interval : N) :
  sources s !! id = Some (Timeout interval kOnConnectSupplicant) →
  id ≠ next_source_id s →
  ∃ s' log,
    dispatch_timeout env id s = Done () s' log ∧
    if connect_ok env then
      sources s' !! id = None ∧
      respawn_limit_ s' = kSupplicantRespawnLimit ∧
      SourceRemove (Npos id) ∈ log
    else
      sources s' !! id = Some (Timeout interval kOnConnectSupplicant) ∧
      respawn_limit_ s' = respawn_limit_ s ∧
      ∀ tag, SourceRemove tag ∉ log.
Proof.
  intros Hsrc Hid.
  destruct (ConnectSupplicant_sources env s) as (s1 & log1 & Hrun & Hlimit & Hsources & Hlog).
  assert (Hcallback : OnConnectSupplicant env s = Done (negb (connect_ok env)) s1 log1).
  { unfold OnConnectSupplicant. rewrite (bind_Done _ _ _ _ _ _ Hrun). simpl.
    by rewrite app_nil_r. }
  unfold dispatch_timeout. rewrite bind_get, Hsrc. simpl.
  rewrite (bind_Done _ _ _ _ _ _ Hcallback).
  destruct (connect_ok env); simpl.
  - unfold_m. simpl. do 2 eexists. split; [reflexivity|].
    destruct s1; simpl in *. split; [apply lookup_delete_eq|]. split; [done|].
    apply elem_of_app. right. apply list_elem_of_here.
  - do 2 eexists. split; [reflexivity|].
    rewrite Hsources, Hlimit, !app_nil_r. done.
Qed.

Example s_started_reached :
  ∃ log, StartSupplicant default_env (initial true (-1) (-1)) = Done true s_started log.
Proof. eexists. vm_compute. reflexivity. Qed.

Lemma connect_timer_repeats_witness :
  sources s_started !! 2%positive = Some (Timeout 500 kOnConnectSupplicant) ∧
  2%positive ≠ next_source_id s_started ∧
  ∃ s' log,
    dispatch_timeout default_env 2 s_started = Done () s' log ∧
    sources s' !! 2%positive = None ∧
    respawn_limit_ s' = 10%N.
Proof.
  assert (Hsrc : sources s_started !! 2%positive = Some (Timeout 500 kOnConnectSupplicant))
    by reflexivity.
  assert (Hid : 2%positive ≠ next_source_id s_started) by done.
  split; [exact Hsrc|]. split; [exact Hid|].
  destruct (connect_timer_repeats default_env s_started 2 500 Hsrc Hid)
    as (s' & log & Hrun & Hgone & Hlimit & _).
  exists s', log. split; [exact Hrun|]. split; [exact Hgone|exact Hlimit].
Defined.

(** ** Requests and timers *)

Lemma RequestAsync_result message callback s :
  RequestAsync message callback s =
    Done () (set_command_queue_ (command_queue_ s ++ [(message, callback)]) s)
      (written_now s message).
Proof.
  unfold RequestAsync, EnqueueCommand, written_now. unfold_m.
  destruct s as [? ? ? ? ? ? ? ? ? ? ? ? ? q ? ? ?]; simpl.
  destruct q; reflexivity.
Qed.

Lemma set_wfd_sub_elements_from_result elements : ∀ n s,
  set_wfd_sub_elements_from n elements s =
    Done ()
      (set_command_queue_
         (command_queue_ s ++ imap (λ i, wfd_request (n + Z.of_nat i)) elements) s)
      (match elements with
       | [] => []
       | element :: _ => written_now s (wfd_request n element).1
       end).
Proof.
  induction elements as [|element rest IH]; intros n s.
  - simpl. rewrite app_nil_r. by destruct s.
  - cbn [set_wfd_sub_elements_from].
    rewrite (bind_Done _ _ _ _ _ _ (RequestAsync_result _ _ s)), IH.
    f_equal.
    + destruct s as [? ? ? ? ? ? ? ? ? ? ? ? ? q ? ? ?]; simpl. f_equal.
      rewrite <- app_assoc. f_equal. simpl. unfold wfd_request at 2.
      rewrite Z.add_0_r. f_equal.
      apply imap_ext. intros i x _. simpl. f_equal. lia.
    + destruct rest; [by rewrite app_nil_r|].
      unfold written_now at 2. rewrite bool_decide_false; [by rewrite app_nil_r|].
      destruct s as [? ? ? ? ? ? ? ? ? ? ? ? ? q ? ? ?]; simpl. by destruct q.
Qed.

(** X13: [SetWfdSubElements] always completes and hands the queue one
    WFD_SUBELEM_SET request per element, in the order of the list and
    numbered from 0; nothing else of the manager changes.  Only the first
    request can go out on the socket at once, and it does when nothing was
    in flight; for the empty list nothing happens.  (The queue is the one
    of section 4.2.) *)
Theorem SetWfdSubElements_spec (elements : list string) (s : Manager) :
  ∃ s' log,
    SetWfdSubElements elements s = Done () s' log ∧
    command_queue_ s' = command_queue_ s ++ imap (λ i, wfd_request (Z.of_nat i)) elements ∧
    set_command_queue_ (command_queue_ s) s' = s ∧
    log = match elements with
          | [] => []
          | element :: _ => written_now s (wfd_request 0 element).1
          end.
Proof.
  unfold SetWfdSubElements. rewrite set_wfd_sub_elements_from_result.
  do 2 eexists. split; [reflexivity|]. by destruct s.
Qed.

Lemma dispatch_failure_null env s id t :
  sources s !! id = Some (Timeout t kOnDeviceFailureTimeout) →
  current_peer_ s = None →
  dispatch_timeout env id s = Undefined.
Proof.
  intros Hsrc Hcur. unfold dispatch_timeout. rewrite bind_get, Hsrc. simpl.
  unfold OnDeviceFailureTimeout. unfold_m. by rewrite Hcur.
Qed.

(** X14: the cooldown that [OnGroupClientDhcpTimeout] attaches is not
    cancelled by [Reset], which [HandleSupplicantFailed] runs: after the
    timeout and a reset the manager has no current peer and the 5000 ms
    source is still attached, and dispatching it dereferences the null
    current peer.  (The id stored in [dhcp_timeout_] is that of an earlier
    source, not the one about to be created.) *)
Theorem cooldown_outlives_Reset (env : Env) (s : Manager) (l : positive) :
  current_peer_ s = Some l →
  dhcp_timeout_ s ≠ Npos (next_source_id s) →
  ∃ s1 log1,
    (OnGroupClientDhcpTimeout;; Reset) s = Done () s1 log1 ∧
    current_peer_ s1 = None ∧
    sources s1 !! next_source_id s = Some peer_failure_source ∧
    dispatch_timeout env (next_source_id s) s1 = Undefined.
Proof.
  intros Hcur Hid.
  assert (Hrun : ∃ s1 log1,
    (OnGroupClientDhcpTimeout;; Reset) s = Done () s1 log1 ∧
    current_peer_ s1 = None ∧
    sources s1 !! next_source_id s = Some peer_failure_source).
  { unfold OnGroupClientDhcpTimeout, Reset. unfold_m.
    destruct s as [[] ? ? tbl cur [|dt] ? ? ? ? ? ? ? ? ? src id]; simpl in *; subst cur;
      crush; rewrite ?lose_all_total; crush;
      do 2 eexists; (split; [reflexivity|]); simpl; (split; [done|]);
      rewrite ?lookup_delete_ne by congruence; apply lookup_insert_eq. }
  destruct Hrun as (s1 & log1 & Hrun & Hnone & Hsrc).
  exists s1, log1. repeat split; try done.
  by apply (dispatch_failure_null env s1 _ kPeerFailureTimeout).
Qed.

Lemma cooldown_outlives_Reset_witness :
  current_peer_ s_connecting = Some 1%positive ∧
  dhcp_timeout_ s_connecting ≠ Npos (next_source_id s_connecting) ∧
  ∃ s1 log1,
    (OnGroupClientDhcpTimeout;; Reset) s_connecting = Done () s1 log1 ∧
    dispatch_timeout default_env 1 s1 = Undefined.
Proof.
  assert (Hid : dhcp_timeout_ s_connecting ≠ Npos (next_source_id s_connecting)) by done.
  split; [reflexivity|]. split; [exact Hid|].
  destruct (cooldown_outlives_Reset default_env s_connecting 1 eq_refl Hid)
    as (s1 & log1 & Hrun & _ & _ & Hcrash).
  exists s1, log1. split; [exact Hrun|exact Hcrash].
Defined.

(** X15: the DHCP timeout round trip.  With a current peer and a fresh
    next source id, [OnP2pGroupStarted] for a role other than GO followed by
    [OnAddressAssigned] completes: the peer ends connected, the stored
    timeout id is 0, the role flag is false, and the main context holds the
    sources it held before, since the timeout attached by the first handler
    is the one the second removes.  The delegate hears of the configuration
    state and of the connected state, in this order, around the start of
    the DHCP client. *)
Theorem dhcp_timer_cancelled (role address : string) (s : Manager) (l : positive) :
  current_peer_ s = Some l →
  role ≠ "GO" →
  sources s !! next_source_id s = None →
  ∃ s' log,
    (OnP2pGroupStarted role;; OnAddressAssigned address) s = Done () s' log ∧
    peer_at s' l = with_State kConnected (peer_at s l) ∧
    dhcp_timeout_ s' = 0%N ∧
    sources s' = sources s ∧
    is_group_owner_ s' = false ∧
    log =
      delegate_calls s
        [OnDeviceStateChanged (Some l) (Some (with_State kConfiguration (peer_at s l)))]
      ++ [DhcpClientStart;
          SourceAttach (next_source_id s) dhcp_timeout_source;
          SourceRemove (Npos (next_source_id s))]
      ++ delegate_calls s
           [OnDeviceStateChanged (Some l) (Some (with_State kConnected (peer_at s l)))].
Proof.
  intros Hcur Hrole Hfresh.
  unfold OnP2pGroupStarted, OnAddressAssigned, delegate_calls. unfold_m.
  rewrite bool_decide_false by done.
  destruct s as [[] ? ? tbl cur ? ? ? ? ? ? ? ? ? ? src id]; simpl in *; subst cur; crush;
    do 2 eexists; (split; [reflexivity|]); simpl;
    rewrite ?lookup_total_insert_eq, delete_insert_id by done; done.
Qed.

Lemma dhcp_timer_cancelled_witness :
  current_peer_ s_connecting = Some 1%positive ∧
  "client" ≠ "GO" ∧
  sources s_connecting !! next_source_id s_connecting = None ∧
  ∃ s' log,
    (OnP2pGroupStarted "client";; OnAddressAssigned "192.168.7.15") s_connecting =
      Done () s' log ∧
    peer_at s' 1 = aquaris_peer kConnected ∧
    sources s' = ∅.
Proof.
  assert (Hrole : "client" ≠ "GO") by done.
  split; [reflexivity|]. split; [exact Hrole|]. split; [reflexivity|].
  destruct (dhcp_timer_cancelled "client" "192.168.7.15" s_connecting 1 eq_refl Hrole eq_refl)
    as (s' & log & Hrun & Hpeer & _ & Hsrc & _).
  exists s', log. split; [exact Hrun|]. rewrite Hpeer, Hsrc. split; reflexivity.
Defined.

(** * The D-Bus skeleton *)

Section skeleton.
Import Stdlib.Strings.Ascii.

Lemma replace_length old_value new_value s :
  String.length (Skeleton.replace old_value new_value s) = String.length s.
Proof. induction s as [|c rest IH]; [done|]. simpl. by rewrite IH. Qed.

Lemma replace_injective s : ∀ s',
  Skeleton.all_chars Skeleton.is_plain_char s = true →
  Skeleton.all_chars Skeleton.is_plain_char s' = true →
  Skeleton.replace ":"%char "_"%char s = Skeleton.replace ":"%char "_"%char s' → s = s'.
Proof.
  induction s as [|c rest IH]; intros [|c' rest']; simpl; try done.
  intros [Hc Hrest]%andb_true_iff [Hc' Hrest']%andb_true_iff [= Hhead Htail].
  f_equal; [|by apply IH].
  apply andb_true_iff in Hc as [Hc%negb_true_iff _].
  apply andb_true_iff in Hc' as [Hc'%negb_true_iff _].
  destruct (Ascii.eqb_spec c ":"%char) as [->|Hne], (Ascii.eqb_spec c' ":"%char) as [->|Hne']; try done.
  - subst c'. by rewrite Ascii.eqb_refl in Hc'.
  - subst c. by rewrite Ascii.eqb_refl in Hc.
Qed.

(** A string without zero byte is formatted whole, also after the colons
    were replaced. *)
Lemma c_str_replace (test : ascii → bool) s :
  (∀ c, test c = true → Ascii.eqb c "000"%char = false) →
  Skeleton.all_chars test s = true →
  Skeleton.c_str (Skeleton.replace ":"%char "_"%char s) = Skeleton.replace ":"%char "_"%char s.
Proof.
  intros Htest. induction s as [|c rest IH]; [done|]. simpl.
  intros [Hc Hrest]%andb_true_iff. rewrite (IH Hrest).
  destruct (Ascii.eqb_spec c ":"%char) as [->|Hne]; [done|]. by rewrite (Htest c Hc).
Qed.

Lemma is_plain_char_no_nul c :
  Skeleton.is_plain_char c = true → Ascii.eqb c "000"%char = false.
Proof. by intros [_ Hc%negb_true_iff]%andb_true_iff. Qed.

Lemma is_address_char_no_nul c :
  Skeleton.is_address_char c = true → Ascii.eqb c "000"%char = false.
Proof. destruct (Ascii.eqb_spec c "000"%char) as [->|Hne]; [discriminate|done]. Qed.

(** X16: [GenerateDevicePath] tells peers apart: two devices with
    different addresses, neither of which holds an underscore or a zero
    byte, get different object paths. *)
Theorem GenerateDevicePath_injective (a b : NetworkDevice) :
  Skeleton.all_chars Skeleton.is_plain_char (Address a) = true →
  Skeleton.all_chars Skeleton.is_plain_char (Address b) = true →
  Address a ≠ Address b →
  Skeleton.GenerateDevicePath a ≠ Skeleton.GenerateDevicePath b.
Proof.
  intros Ha Hb Hne Heq. apply Hne. unfold Skeleton.GenerateDevicePath in Heq.
  rewrite !(c_str_replace _ _ is_plain_char_no_nul) in Heq by done.
  apply (replace_injective _ _ Ha Hb). by simplify_eq/=.
Qed.

Lemma replace_path_chars s :
  Skeleton.all_chars Skeleton.is_address_char s = true →
  Skeleton.all_chars Skeleton.is_path_char (Skeleton.replace ":"%char "_"%char s) = true.
Proof.
  induction s as [|c rest IH]; [done|]. simpl.
  intros [Hc Hrest]%andb_true_iff. rewrite (IH Hrest), andb_true_r.
  destruct (Ascii.eqb_spec c ":"%char) as [->|Hne]; [done|].
  unfold Skeleton.is_address_char in Hc. unfold Skeleton.is_path_char.
  apply orb_true_iff in Hc as [Hc|Hc]; [by rewrite Hc|].
  by apply Ascii.eqb_eq in Hc.
Qed.

(** X17: for an address made of letters, digits and colons, the path of
    [GenerateDevicePath] holds only characters that D-Bus allows in an
    object path, and it is 20 characters longer than the address. *)
Theorem GenerateDevicePath_valid (device : NetworkDevice) :
  Skeleton.all_chars Skeleton.is_address_char (Address device) = true →
  Skeleton.all_chars Skeleton.is_path_char (Skeleton.GenerateDevicePath device) = true ∧
  String.length (Skeleton.GenerateDevicePath device) = 20 + String.length (Address device).
Proof.
  intros Haddr. unfold Skeleton.GenerateDevicePath.
  rewrite (c_str_replace _ _ is_address_char_no_nul Haddr). split.
  - simpl. by apply replace_path_chars.
  - rewrite <- (replace_length ":"%char "_"%char (Address device)). reflexivity.
Qed.

Lemma GenerateDevicePath_injective_witness :
  Skeleton.all_chars Skeleton.is_plain_char (Address (aquaris_peer kIdle)) = true ∧
  Skeleton.all_chars Skeleton.is_plain_char (Address (new_peer tv_address "TV")) = true ∧
  Address (aquaris_peer kIdle) ≠ Address (new_peer tv_address "TV") ∧
  Skeleton.GenerateDevicePath (aquaris_peer kIdle) = "/org/aethercast/dev_4e_74_03_70_e2_c1" ∧
  Skeleton.GenerateDevicePath (new_peer tv_address "TV") = "/org/aethercast/dev_02_00_00_00_01_00" ∧
  Skeleton.GenerateDevicePath (aquaris_peer kIdle)
    ≠ Skeleton.GenerateDevicePath (new_peer tv_address "TV").
Proof.
  assert (Hne : Address (aquaris_peer kIdle) ≠ Address (new_peer tv_address "TV")) by done.
  split; [reflexivity|]. split; [reflexivity|]. split; [exact Hne|].
  split; [reflexivity|]. split; [reflexivity|].
  exact (GenerateDevicePath_injective (aquaris_peer kIdle) (new_peer tv_address "TV")
           eq_refl eq_refl Hne).
Defined.

(** An address with a zero byte in it is formatted up to that byte. *)
Example GenerateDevicePath_stops_at_nul :
  Skeleton.GenerateDevicePath
    (new_peer (String "a"%char (String ":"%char (String "000"%char "b"))) "")
  = "/org/aethercast/dev_a_".
Proof. reflexivity. Qed.

Lemma GenerateDevicePath_valid_witness :
  Skeleton.all_chars Skeleton.is_address_char (Address (aquaris_peer kIdle)) = true ∧
  String.length (Skeleton.GenerateDevicePath (aquaris_peer kIdle)) = 37.
Proof.
  split; [reflexivity|].
  exact (proj2 (GenerateDevicePath_valid (aquaris_peer kIdle) eq_refl)).
Defined.

Lemma tolower_not_upper c : Skeleton.is_upper (Skeleton.tolower c) = false.
Proof. destruct c as [[] [] [] [] [] [] [] []]; reflexivity. Qed.

Lemma tolower_fixes c : Skeleton.is_upper c = false → Skeleton.tolower c = c.
Proof. unfold Skeleton.tolower, Skeleton.is_upper. simpl. by intros ->. Qed.

(** X18: [HyphenNameFromPropertyName] returns a string of the same
    length without upper-case letters; applied to its own result, or to a
    name without upper-case letters, it changes nothing. *)
Theorem HyphenNameFromPropertyName_lower (property_name : string) :
  String.length (Skeleton.HyphenNameFromPropertyName property_name)
    = String.length property_name ∧
  Skeleton.all_chars (λ c, negb (Skeleton.is_upper c))
    (Skeleton.HyphenNameFromPropertyName property_name) = true ∧
  Skeleton.HyphenNameFromPropertyName (Skeleton.HyphenNameFromPropertyName property_name)
    = Skeleton.HyphenNameFromPropertyName property_name ∧
  (Skeleton.all_chars (λ c, negb (Skeleton.is_upper c)) property_name = true →
   Skeleton.HyphenNameFromPropertyName property_name = property_name).
Proof.
  unfold Skeleton.HyphenNameFromPropertyName.
  induction property_name as [|c rest (IHlen & IHlow & IHidem & IHfix)]; [done|].
  cbn [Skeleton.transform Skeleton.all_chars String.length].
  rewrite IHlen, IHlow, IHidem, tolower_not_upper.
  rewrite (tolower_fixes (Skeleton.tolower c)) by apply tolower_not_upper.
  repeat split.
  intros [Hc%negb_true_iff Hrest]%andb_true_iff.
  by rewrite (tolower_fixes c Hc), (IHfix Hrest).
Qed.

Lemma Skeleton_OnDeviceFound_result read l devices_ :
  Skeleton.OnDeviceFound read (Some l) devices_ =
    Some (match devices_ !! Address (read l) with
          | Some _ => devices_
          | None =>
              <[Address (read l) :=
                  {| Skeleton.Path := Skeleton.GenerateDevicePath (read l);
                     Skeleton.device_ := Some l |}]> devices_
          end,
          [Skeleton.Export (Skeleton.GenerateDevicePath (read l))]).
Proof. reflexivity. Qed.

(** X19: the skeleton's [OnDeviceFound] exports the path generated for
    the device.  If the address was not yet in [devices_], an
    [OnDeviceLost] for a device with the same address then unexports that
    very path and leaves [devices_] as it was before the two calls.  If the
    address was in [devices_], the map is left as it is, so the adapter
    just exported is not kept, and [OnDeviceLost] unexports the path of the
    adapter that was there and erases the entry. *)
Theorem Skeleton_found_then_lost (read : positive → NetworkDevice) (l l' : positive)
    (devices_ : gmap string Skeleton.NetworkDeviceSkeleton) :
  Address (read l') = Address (read l) →
  ∃ found,
    Skeleton.OnDeviceFound read (Some l) devices_ =
      Some (found, [Skeleton.Export (Skeleton.GenerateDevicePath (read l))]) ∧
    match devices_ !! Address (read l) with
    | None =>
        Skeleton.OnDeviceLost read (Some l') found =
          Some (devices_, [Skeleton.Unexport (Skeleton.GenerateDevicePath (read l))])
    | Some known =>
        found = devices_ ∧
        Skeleton.OnDeviceLost read (Some l') found =
          Some (delete (Address (read l)) devices_, [Skeleton.Unexport (Skeleton.Path known)])
    end.
Proof.
  intros Hsame. eexists. split; [apply Skeleton_OnDeviceFound_result|].
  unfold Skeleton.OnDeviceLost. simpl. rewrite Hsame.
  destruct (devices_ !! Address (read l)) as [known|] eqn:Hknown.
  - split; [done|]. by rewrite Hknown.
  - rewrite lookup_insert_eq. simpl. by rewrite delete_insert_id.
Qed.

Lemma Skeleton_found_then_lost_witness :
  ∃ found,
    Skeleton.OnDeviceFound (peer_at s_discovered) (Some 1%positive) ∅ =
      Some (found, [Skeleton.Export "/org/aethercast/dev_4e_74_03_70_e2_c1"]) ∧
    Skeleton.OnDeviceLost (peer_at s_discovered) (Some 1%positive) found =
      Some (∅, [Skeleton.Unexport "/org/aethercast/dev_4e_74_03_70_e2_c1"]).
Proof.
  destruct (Skeleton_found_then_lost (peer_at s_discovered) 1 1 ∅ eq_refl)
    as (found & Hfound & Hlost).
  exists found. split; [exact Hfound|exact Hlost].
Defined.

Lemma paths_agree_empty : Skeleton.paths_agree ∅.
Proof. intros address adapter. by rewrite lookup_empty. Qed.

(** X20: the skeleton's handlers keep every adapter under the address
    its path was generated from, and whenever one of them completes the
    device pointer was not null and every call it made is for the path
    generated from that device: what [OnDeviceLost] unexports and
    [OnDeviceChanged] synchronises is what [OnDeviceFound] exports. *)
Theorem Skeleton_paths_agree (read : positive → NetworkDevice) (device : Ptr)
    (devices_ after : gmap string Skeleton.NetworkDeviceSkeleton)
    (calls : list Skeleton.BusCall) :
  Skeleton.paths_agree devices_ →
  Skeleton.OnDeviceFound read device devices_ = Some (after, calls) ∨
  Skeleton.OnDeviceLost read device devices_ = Some (after, calls) ∨
  Skeleton.OnDeviceChanged read device devices_ = Some (after, calls) →
  Skeleton.paths_agree after ∧
  ∃ l, device = Some l ∧
       ∀ call, call ∈ calls →
         call = Skeleton.Export (Skeleton.GenerateDevicePath (read l)) ∨
         call = Skeleton.Unexport (Skeleton.GenerateDevicePath (read l)) ∨
         call = Skeleton.SyncProperties (Skeleton.GenerateDevicePath (read l)).
Proof.
  intros Hagree Hrun. destruct device as [l|]; [|by destruct Hrun as [|[|]]].
  unfold Skeleton.OnDeviceFound, Skeleton.OnDeviceLost, Skeleton.OnDeviceChanged in Hrun.
  simpl in Hrun.
  destruct (devices_ !! Address (read l)) as [known|] eqn:Hknown.
  - pose proof (Hagree _ _ Hknown) as Hpath.
    destruct Hrun as [[= <- <-]|[[= <- <-]|[= <- <-]]].
    + split; [done|]. exists l. split; [done|].
      intros call ->%list_elem_of_singleton. by left.
    + split.
      * intros address adapter [_ Hin]%lookup_delete_Some. by apply Hagree.
      * exists l. split; [done|].
        intros call ->%list_elem_of_singleton. right. left. by rewrite Hpath.
    + split; [done|]. exists l. split; [done|].
      intros call ->%list_elem_of_singleton. right. right. by rewrite Hpath.
  - destruct Hrun as [[= <- <-]|[[= <- <-]|[= <- <-]]].
    + split.
      * intros address adapter [[<- <-]|[_ Hin]]%lookup_insert_Some; [done|by apply Hagree].
      * exists l. split; [done|].
        intros call ->%list_elem_of_singleton. by left.
    + split; [done|]. exists l. split; [done|]. by intros call ?%elem_of_nil.
    + split; [done|]. exists l. split; [done|]. by intros call ?%elem_of_nil.
Qed.

Lemma Skeleton_paths_agree_witness :
  Skeleton.paths_agree ∅ ∧
  Skeleton.paths_agree
    {[ aquaris := {| Skeleton.Path := "/org/aethercast/dev_4e_74_03_70_e2_c1";
                     Skeleton.device_ := Some 1%positive |} ]}.
Proof.
  split; [exact paths_agree_empty|].
  refine (proj1 (Skeleton_paths_agree (peer_at s_discovered) (Some 1%positive) ∅ _
                   [Skeleton.Export "/org/aethercast/dev_4e_74_03_70_e2_c1"]
                   paths_agree_empty (or_introl _))).
  reflexivity.
Defined.

End skeleton.
